(** * PairManager: the set of overlapping body pairs of the broad phase

    A shallow embedding of [src/collision/broadphase/PairManager.h]
    (ReactPhysics3D) and of the properties stated about it.

    The header defines the inline members of [BodyPair] and [PairManager];
    the out-of-line members ([lookForAPair], [reallocatePairs], [addPair],
    [removePair], ...) live in [PairManager.cpp], and the integer typedefs
    ([uint], [luint], [bodyindex]) in [configuration.h].  Definitions that
    stand for those are marked as modelled from the specification. *)

From Stdlib Require Import ZArith Lia Bool.
From stdpp Require Import base list.

Local Open Scope Z_scope.

(** ** Integer types *)

(** [uint] and [int] are 32 bits wide.  The widths of [luint]
    ([unsigned long]) and of [bodyindex] come from [configuration.h] and
    from the platform; they are parameters of the development.  C++
    guarantees at least 32 bits for [unsigned long] and at least 16 bits
    for any integer type [bodyindex] may name. *)
Class IntegerWidths : Set := {
  luint_bits : Z;
  bodyindex_bits : Z;
  luint_bits_min : 32 <= luint_bits;
  bodyindex_bits_min : 16 <= bodyindex_bits
}.

(** Conversion to an unsigned type of [bits] bits: reduction modulo [2^bits]. *)
Definition to_unsigned (bits z : Z) : Z := z mod 2 ^ bits.

Definition to_uint (z : Z) : Z := to_unsigned 32 z.

(** Conversion to [int]: the representative of [z] modulo [2^32] in
    [[-2^31, 2^31)] (two's complement). *)
Definition to_int (z : Z) : Z := (z + 2 ^ 31) mod 2 ^ 32 - 2 ^ 31.

Section Hashing.

Context `{IntegerWidths}.

Definition to_luint (z : Z) : Z := to_unsigned luint_bits z.
Definition to_bodyindex (z : Z) : Z := to_unsigned bodyindex_bits z.

(** Modelled from the spec: the value of [PairManager::INVALID_INDEX], which
    the header only declares.  The spec calls it "a reserved integer value
    (larger than any valid array index)"; it is taken to be the largest
    [bodyindex]. *)
Definition INVALID_INDEX : Z := 2 ^ bodyindex_bits - 1.

(** ** Hashing and ordering *)

(** [computeHash32Bits]: Thomas Wang's mix on an [int].  Signed arithmetic
    wraps around and [>>] on an [int] is the arithmetic shift, which is what
    [Z.shiftr] computes on a negative number. *)
Definition computeHash32Bits (key : Z) : Z :=
  let key := to_int (key + Z.lnot (to_int (Z.shiftl key 15))) in
  let key := Z.lxor key (Z.shiftr key 10) in
  let key := to_int (key + to_int (Z.shiftl key 3)) in
  let key := Z.lxor key (Z.shiftr key 6) in
  let key := to_int (key + Z.lnot (to_int (Z.shiftl key 11))) in
  let key := Z.lxor key (Z.shiftr key 16) in
  key.

(** The 32-bit key [id1 | (id2 << 16)] built by [computeHashBodies] from
    its two [uint] arguments. *)
Definition hashKey (id1 id2 : Z) : Z :=
  Z.lor id1 (to_uint (Z.shiftl id2 16)).

(** [computeHashBodies(uint id1, uint id2)]: the key is converted to [int]
    for [computeHash32Bits] and the result back to [uint]. *)
Definition computeHashBodies (id1 id2 : Z) : Z :=
  to_uint (computeHash32Bits (to_int (hashKey id1 id2))).

(** [computeNextPowerOfTwo(luint number)] *)
Definition computeNextPowerOfTwo (number : Z) : Z :=
  let number := Z.lor number (Z.shiftr number 1) in
  let number := Z.lor number (Z.shiftr number 2) in
  let number := Z.lor number (Z.shiftr number 4) in
  let number := Z.lor number (Z.shiftr number 8) in
  let number := Z.lor number (Z.shiftr number 16) in
  to_luint (number + 1).

(** [sortIDs(bodyindex& id1, bodyindex& id2)]: the two references after
    the call. *)
Definition sortIDs (id1 id2 : Z) : Z * Z :=
  if id1 >? id2 then (id2, id1) else (id1, id2).

End Hashing.

(** ** Bodies and pairs *)

(** What [PairManager] uses of a [CollisionBody]: its identifier. *)
Record CollisionBody : Set := mkBody { getID : Z }.

Record BodyPair : Set := mkBodyPair {
  body1 : CollisionBody;
  body2 : CollisionBody
}.

(** [sortBodiesUsingID(CollisionBody*& body1, CollisionBody*& body2)] *)
Definition sortBodiesUsingID (b1 b2 : CollisionBody) : CollisionBody * CollisionBody :=
  if getID b1 >? getID b2 then (b2, b1) else (b1, b2).

(** [isDifferentPair(pair1, pair2ID1, pair2ID2)] *)
Definition isDifferentPair (pair1 : BodyPair) (pair2ID1 pair2ID2 : Z) : bool :=
  negb (pair2ID1 =? getID (body1 pair1)) || negb (pair2ID2 =? getID (body2 pair1)).

(** ** Results of calls *)

Inductive fault : Set :=
| AssertionFailed      (* an [assert] does not hold *)
| OutOfBounds          (* an array is read or written outside its cells *)
| Uninitialised        (* a cell is read that was never written *)
| NullDereference      (* an array that is NULL is indexed *)
| EndlessLoop.         (* a loop that never exits *)

(** A call either executes a [return] statement, or reaches the closing
    brace of a function that must return a value without executing one, or
    stops on a fault. *)
Inductive outcome (A : Type) : Type :=
| Returned (a : A)
| NoReturnValue
| Fault (f : fault).

Arguments Returned {A} a.
Arguments NoReturnValue {A}.
Arguments Fault {A} f.

Definition bind {A B : Type} (x : outcome A) (k : A -> outcome B) : outcome B :=
  match x with
  | Returned a => k a
  | NoReturnValue => NoReturnValue
  | Fault f => Fault f
  end.

Notation "'let*' x ':=' c1 'in' c2" := (bind c1 (fun x => c2))
  (at level 10, x pattern, c1 at level 100, c2 at level 200).

Definition assert (b : bool) : outcome unit :=
  if b then Returned tt else Fault AssertionFailed.

(** [BodyPair::getBodiesIndexPair] *)
Definition getBodiesIndexPair (p : BodyPair) : outcome (Z * Z) :=
  let indexPair :=
    if getID (body1 p) <? getID (body2 p)
    then (getID (body1 p), getID (body2 p))
    else (getID (body2 p), getID (body1 p)) in
  let* _ := assert (negb (fst indexPair =? snd indexPair)) in
  Returned indexPair.

(** ** Arrays and pointers *)

(** A heap array behind a pointer field: [None] is the NULL pointer,
    [Some cells] an allocated block.  A cell is [None] until it is written
    for the first time ([malloc] does not initialise). *)
Definition array (A : Type) : Type := option (list (option A)).

Definition readCell {A : Type} (a : array A) (i : Z) : outcome A :=
  match a with
  | None => Fault NullDereference
  | Some cells =>
      if i <? 0 then Fault OutOfBounds
      else match cells !! Z.to_nat i with
           | None => Fault OutOfBounds
           | Some None => Fault Uninitialised
           | Some (Some x) => Returned x
           end
  end.

Definition writeCell {A : Type} (a : array A) (i : Z) (x : A) : outcome (array A) :=
  match a with
  | None => Fault NullDereference
  | Some cells =>
      if (0 <=? i) && (i <? Z.of_nat (length cells))
      then Returned (Some (<[Z.to_nat i := Some x]> cells))
      else Fault OutOfBounds
  end.

(** A [BodyPair*] as the manager hands it out: the address of cell [i] of
    the allocated pair array, or the null pointer moved by [i] elements
    when the array pointer is NULL.  [NullPlus 0] is the null pointer. *)
Inductive BodyPairPtr : Set :=
| NullPlus (i : Z)
| Slot (i : Z).

Definition NULL : BodyPairPtr := NullPlus 0.

(** [&a[i]] *)
Definition addressOf {A : Type} (a : array A) (i : Z) : BodyPairPtr :=
  match a with
  | None => NullPlus i
  | Some _ => Slot i
  end.

(** ** The pair manager *)

Record PairManager := mkPairManager {
  mNbElementsHashTable : Z;
  mHashMask : Z;
  mNbOverlappingPairs : Z;
  mHashTable : array Z;
  mOffsetNextPair : array Z;
  mOverlappingPairs : array BodyPair
}.

Definition getNbOverlappingPairs (m : PairManager) : Z := mNbOverlappingPairs m.

(** [beginOverlappingPairsPointer] *)
Definition beginOverlappingPairsPointer (m : PairManager) : BodyPairPtr :=
  addressOf (mOverlappingPairs m) 0.

(** [endOverlappingPairsPointer] *)
Definition endOverlappingPairsPointer (m : PairManager) : BodyPairPtr :=
  if mNbOverlappingPairs m >? 0
  then addressOf (mOverlappingPairs m) (mNbOverlappingPairs m - 1)
  else addressOf (mOverlappingPairs m) 0.

(** The result of a chain walk: the offsets of the records that were
    compared, in the order of the walk, and what the walk ends with. *)
Record walk (A : Type) : Type := mkWalk {
  visited : list Z;
  result : outcome A
}.

Arguments mkWalk {A} visited result.
Arguments visited {A} w.
Arguments result {A} w.

Section Operations.

Context `{IntegerWidths}.

(** [computeHashBodies(id1, id2) & mask]: the [bodyindex] arguments are
    converted to [uint] by the call of [computeHashBodies]. *)
Definition bucket (mask id1 id2 : Z) : Z :=
  Z.land (computeHashBodies (to_uint id1) (to_uint id2)) mask.

(** The bucket of a normalised pair of identifiers. *)
Definition bucketOf (m : PairManager) (id1 id2 : Z) : Z :=
  bucket (mHashMask m) id1 id2.

(** The bucket of a stored record under [mask]. *)
Definition bucketOfPair (mask : Z) (p : BodyPair) : Z :=
  bucket mask (getID (body1 p)) (getID (body2 p)).

(** *** Lookup *)

(** The loop of [lookForAPair], from the record at [offset] on: it stops at
    the sentinel or at the first record that is not different from
    [(id1, id2)].  A chain of an array of [n] cells that has not ended
    after [n] records runs in a cycle. *)
Fixpoint walkChain (fuel : nat) (m : PairManager) (id1 id2 offset : Z) : walk Z :=
  if offset =? INVALID_INDEX then mkWalk [] (Returned INVALID_INDEX)
  else match fuel with
       | O => mkWalk [] (Fault EndlessLoop)
       | S fuel' =>
           match readCell (mOverlappingPairs m) offset with
           | Returned candidate =>
               if isDifferentPair candidate id1 id2
               then match readCell (mOffsetNextPair m) offset with
                    | Returned next =>
                        let w := walkChain fuel' m id1 id2 next in
                        mkWalk (offset :: visited w) (result w)
                    | NoReturnValue => mkWalk [offset] NoReturnValue
                    | Fault f => mkWalk [offset] (Fault f)
                    end
               else mkWalk [offset] (Returned offset)
           | NoReturnValue => mkWalk [] NoReturnValue
           | Fault f => mkWalk [] (Fault f)
           end
       end.

Definition chainFuel (m : PairManager) : nat :=
  match mOffsetNextPair m with
  | None => 1%nat
  | Some cells => S (length cells)
  end.

(** Modelled from the spec: [PairManager::lookForAPair], declared in the
    header and defined in [PairManager.cpp].  The spec: "walks the chain
    starting at the bucket head comparing each candidate's normalized IDs;
    returns the first exact match or 'not found'".  The result is the
    address of the matching record, or NULL. *)
Definition lookForAPair (m : PairManager) (id1 id2 hashValue : Z) : walk BodyPairPtr :=
  match readCell (mHashTable m) hashValue with
  | Returned head =>
      let w := walkChain (chainFuel m) m id1 id2 head in
      mkWalk (visited w)
        (let* offset := result w in
         if offset =? INVALID_INDEX then Returned NULL
         else Returned (addressOf (mOverlappingPairs m) offset))
  | NoReturnValue => mkWalk [] NoReturnValue
  | Fault f => mkWalk [] (Fault f)
  end.

(** [findPair]: the value of the call of [lookForAPair] on the last line
    is computed and dropped; the function body ends there without a
    [return] statement. *)
Definition findPair (m : PairManager) (id1 id2 : Z) : walk BodyPairPtr :=
  match mHashTable m with
  | None => mkWalk [] (Returned NULL)
  | Some _ =>
      let '(id1, id2) := sortIDs id1 id2 in
      let hashValue := bucketOf m id1 id2 in
      let w := lookForAPair m id1 id2 hashValue in
      mkWalk (visited w) (let* _ := result w in NoReturnValue)
  end.

(** [findPairWithHashValue] *)
Definition findPairWithHashValue (m : PairManager) (id1 id2 hashValue : Z)
  : walk BodyPairPtr :=
  match mHashTable m with
  | None => mkWalk [] (Returned NULL)
  | Some _ => lookForAPair m id1 id2 hashValue
  end.

(** *** Reallocation *)

(** One round of the rehash: record [i] becomes the head of its bucket and
    the former head its successor. *)
Definition rehashPair (mask : Z) (pairs : array BodyPair)
    (acc : outcome (array Z * array Z)) (i : nat) : outcome (array Z * array Z) :=
  let* (table, next) := acc in
  let* p := readCell pairs (Z.of_nat i) in
  let hashValue := bucketOfPair mask p in
  let* head := readCell table hashValue in
  let* next := writeCell next (Z.of_nat i) head in
  let* table := writeCell table hashValue (Z.of_nat i) in
  Returned (table, next).

(** The new pair buffer: the valid records moved to the front of a block
    of [capacity] cells. *)
Definition movePairs (capacity count : nat) (old : array BodyPair)
  : outcome (array BodyPair) :=
  match count with
  | O => Returned (Some (replicate capacity None))
  | _ =>
      match old with
      | None => Fault NullDereference
      | Some cells =>
          if (count <=? length cells)%nat && (count <=? capacity)%nat
          then Returned (Some (take count cells ++ replicate (capacity - count) None))
          else Fault OutOfBounds
      end
  end.

(** Modelled from the spec: [PairManager::reallocatePairs], declared in
    the header and defined in [PairManager.cpp].  The spec: "reallocate and
    fully rehash the bucket index and chain links for every existing entry";
    "grow/shrink create a new buffer, move valid entries, rehash".  The
    three arrays get [mNbElementsHashTable] cells each. *)
Definition reallocatePairs (m : PairManager) : outcome PairManager :=
  let capacity := Z.to_nat (mNbElementsHashTable m) in
  let count := Z.to_nat (mNbOverlappingPairs m) in
  let* pairs := movePairs capacity count (mOverlappingPairs m) in
  let* (table, next) :=
    foldl (rehashPair (mHashMask m) pairs)
      (Returned (Some (replicate capacity (Some INVALID_INDEX)),
                 Some (replicate capacity None)))
      (seq 0 count) in
  Returned (mkPairManager (mNbElementsHashTable m) (mHashMask m)
              (mNbOverlappingPairs m) table next pairs).

(** [shrinkMemory] *)
Definition shrinkMemory (m : PairManager) : outcome PairManager :=
  let correctNbElementsHashTable :=
    to_bodyindex (computeNextPowerOfTwo (to_luint (mNbOverlappingPairs m))) in
  if mNbElementsHashTable m =? correctNbElementsHashTable then Returned m
  else
    reallocatePairs
      (mkPairManager correctNbElementsHashTable
         (to_uint (correctNbElementsHashTable - 1))
         (mNbOverlappingPairs m)
         (mHashTable m) (mOffsetNextPair m) (mOverlappingPairs m)).

(** *** Insertion and removal *)

Definition isNull (p : BodyPairPtr) : bool :=
  match p with
  | NullPlus 0 => true
  | _ => false
  end.

(** Modelled from the spec: "the smallest power of two >= count + 1" of the
    growth policy of [addPair]. *)
Definition smallestPowerOfTwoGeq (n : Z) : Z := 2 ^ Z.log2_up n.

(** Modelled from the spec: the growth step of [addPair].  "Ensure capacity
    (grow the dense store, and if capacity changed, reallocate and fully
    rehash the bucket index and chain links for every existing entry)";
    "capacity must be the smallest power of two >= count + 1; when growth
    occurs, the bucket index size also changes to the same capacity";
    "mask = size - 1". *)
Definition ensureCapacity (m : PairManager) : outcome PairManager :=
  if mNbElementsHashTable m <? mNbOverlappingPairs m + 1
  then
    let capacity := smallestPowerOfTwoGeq (mNbOverlappingPairs m + 1) in
    reallocatePairs
      (mkPairManager capacity (capacity - 1) (mNbOverlappingPairs m)
         (mHashTable m) (mOffsetNextPair m) (mOverlappingPairs m))
  else Returned m.

(** Modelled from the spec: [PairManager::addPair], declared in the header
    and defined in [PairManager.cpp].  The spec: the two identifiers must
    differ (a violation fails fast); "if an equal pair already exists,
    returns it unchanged"; otherwise "ensure capacity; append the new,
    canonically-ordered record at the current count position; link it to
    the head of its bucket's chain (new entry becomes the new head; former
    head becomes its next); increment count".  The notification of the
    collision detection does not touch the manager and is left out. *)
Definition addPair (m : PairManager) (bodyA bodyB : CollisionBody)
  : outcome (PairManager * BodyPairPtr) :=
  let* _ := assert (negb (getID bodyA =? getID bodyB)) in
  let '(b1, b2) := sortBodiesUsingID bodyA bodyB in
  let id1 := getID b1 in
  let id2 := getID b2 in
  let* existing := result (findPairWithHashValue m id1 id2 (bucketOf m id1 id2)) in
  if isNull existing
  then
    let* m := ensureCapacity m in
    let count := mNbOverlappingPairs m in
    let hashValue := bucketOf m id1 id2 in
    let* pairs := writeCell (mOverlappingPairs m) count (mkBodyPair b1 b2) in
    let* head := readCell (mHashTable m) hashValue in
    let* next := writeCell (mOffsetNextPair m) count head in
    let* table := writeCell (mHashTable m) hashValue count in
    Returned (mkPairManager (mNbElementsHashTable m) (mHashMask m) (count + 1)
                table next pairs,
              addressOf pairs count)
  else Returned (m, existing).

(** The link that holds [target] in the chain from record [p] on is set
    to [newValue]. *)
Fixpoint patchChain (fuel : nat) (next : array Z) (p target newValue : Z)
  : outcome (array Z) :=
  match fuel with
  | O => Fault EndlessLoop
  | S fuel' =>
      let* successor := readCell next p in
      if successor =? target then writeCell next p newValue
      else patchChain fuel' next successor target newValue
  end.

(** The link that holds [target] in the bucket [hashValue], the bucket
    head or the link of a predecessor, is set to [newValue]. *)
Definition patchLink (table next : array Z) (hashValue target newValue : Z)
  : outcome (array Z * array Z) :=
  let* head := readCell table hashValue in
  if head =? target
  then let* table := writeCell table hashValue newValue in Returned (table, next)
  else
    let fuel := match next with None => 1%nat | Some cells => S (length cells) end in
    let* next := patchChain fuel next head target newValue in
    Returned (table, next).

(** Modelled from the spec: [PairManager::removePairWithHashValue],
    declared in the header and defined in [PairManager.cpp].  The spec:
    "splicing the found entry out (predecessor's next becomes the found
    entry's next; if the found entry was the bucket head, the bucket head
    becomes its next)"; "the last record (count - 1) is moved into the
    vacated slot (unless the vacated slot was already last), and the bucket
    chain entry that referenced the old last-slot index must be retargeted
    to the new index - this requires locating that record's own bucket
    (recompute its hash) and patching its link.  Decrement count." *)
Definition removePairWithHashValue (m : PairManager)
    (id1 id2 hashValue indexPair : Z) : outcome PairManager :=
  let* successor := readCell (mOffsetNextPair m) indexPair in
  let* (table, next) :=
    patchLink (mHashTable m) (mOffsetNextPair m) hashValue indexPair successor in
  let lastIndex := mNbOverlappingPairs m - 1 in
  if lastIndex =? indexPair
  then Returned (mkPairManager (mNbElementsHashTable m) (mHashMask m) lastIndex
                   table next (mOverlappingPairs m))
  else
    let* last := readCell (mOverlappingPairs m) lastIndex in
    let lastHash := bucketOfPair (mHashMask m) last in
    let* (table, next) := patchLink table next lastHash lastIndex indexPair in
    let* lastSuccessor := readCell next lastIndex in
    let* next := writeCell next indexPair lastSuccessor in
    let* pairs := writeCell (mOverlappingPairs m) indexPair last in
    Returned (mkPairManager (mNbElementsHashTable m) (mHashMask m) lastIndex
                table next pairs).

(** Modelled from the spec: [PairManager::removePair], declared in the
    header and defined in [PairManager.cpp].  The spec: "normalizes IDs,
    computes bucket and hash, locates the record via chain traversal";
    "returns false (no-op, no callback) if the pair does not exist".
    Shrinking is a separate step ([shrinkMemory]); the spec leaves open
    when it runs.  The notification is left out as in [addPair]. *)
Definition removePair (m : PairManager) (id1 id2 : Z) : outcome (PairManager * bool) :=
  let '(id1, id2) := sortIDs id1 id2 in
  let hashValue := bucketOf m id1 id2 in
  let* found := result (findPairWithHashValue m id1 id2 hashValue) in
  match found with
  | Slot indexPair =>
      let* m := removePairWithHashValue m id1 id2 hashValue indexPair in
      Returned (m, true)
  | NullPlus _ => Returned (m, false)
  end.

(** Modelled from the spec: the manager before the first insertion
    ("allocated lazily on first insertion"): no pair and no array. *)
Definition emptyManager : PairManager :=
  mkPairManager 0 0 0 None None None.

End Operations.

(** ** Vocabulary of the properties *)

Definition isPowerOfTwo (n : Z) : Prop := exists k : Z, 0 <= k /\ n = 2 ^ k.

(** [c] is the smallest power of two that is at least [n]. *)
Definition isSmallestPowerOfTwoGeq (n c : Z) : Prop :=
  isPowerOfTwo c /\ n <= c /\ forall p : Z, isPowerOfTwo p -> n <= p -> c <= p.

(** The number of cells of an allocated array. *)
Definition cellsOf {A : Type} (a : array A) : option Z :=
  match a with
  | None => None
  | Some cells => Some (Z.of_nat (length cells))
  end.

(** The dense store holds its [mNbOverlappingPairs] records: each of the
    cells [0 .. count - 1] of the pair array can be read. *)
Definition denseStoreValid (m : PairManager) : Prop :=
  0 <= mNbOverlappingPairs m
  /\ forall i : Z, 0 <= i < mNbOverlappingPairs m ->
       exists p : BodyPair, readCell (mOverlappingPairs m) i = Returned p.

(** The bits of [x] from bit [k] down over a width of [w] are set, and no
    bit above [k] is. *)
Definition filled (k w x : Z) : Prop :=
  (forall i : Z, k < i -> Z.testbit x i = false)
  /\ (forall i : Z, 0 <= i <= k -> k - i < w -> Z.testbit x i = true).

(** What the rehash loop of [reallocatePairs] keeps true of the new bucket
    index and links: both have [capacity] cells and every bucket has been
    written. *)
Definition rehashed (capacity : nat) (acc : outcome (array Z * array Z)) : Prop :=
  exists table next : list (option Z),
    acc = Returned (Some table, Some next)
    /\ length table = capacity
    /\ length next = capacity
    /\ forall j : nat, (j < capacity)%nat -> exists v : Z, table !! j = Some (Some v).

(** *** Iterating between two pointers *)

(** The element index a pointer stands at. *)
Definition ptrIndex (p : BodyPairPtr) : Z :=
  match p with
  | NullPlus i => i
  | Slot i => i
  end.

(** [p + k] *)
Definition ptrPlus (p : BodyPairPtr) (k : Z) : BodyPairPtr :=
  match p with
  | NullPlus i => NullPlus (i + k)
  | Slot i => Slot (i + k)
  end.

(** The pointers that [for (p = first; p != last; ++p)] steps through:
    [last] is one past the end. *)
Definition rangeHalfOpen (first last : BodyPairPtr) : list BodyPairPtr :=
  map (fun k : nat => ptrPlus first (Z.of_nat k))
      (seq 0 (Z.to_nat (ptrIndex last - ptrIndex first))).

(** The pointers that [for (p = first; p <= last; ++p)] steps through:
    [last] is the last element. *)
Definition rangeInclusive (first last : BodyPairPtr) : list BodyPairPtr :=
  map (fun k : nat => ptrPlus first (Z.of_nat k))
      (seq 0 (Z.to_nat (ptrIndex last - ptrIndex first + 1))).

(** The addresses of the cells [0 .. count - 1] of the dense store. *)
Definition validRange (m : PairManager) : list BodyPairPtr :=
  map (fun k : nat => addressOf (mOverlappingPairs m) (Z.of_nat k))
      (seq 0 (Z.to_nat (mNbOverlappingPairs m))).

(** [*p] *)
Definition deref (m : PairManager) (p : BodyPairPtr) : outcome BodyPair :=
  match p with
  | NullPlus _ => Fault NullDereference
  | Slot i => readCell (mOverlappingPairs m) i
  end.

(** *** The chains of the buckets *)

(** [isSeg next a c b]: the links from the offset [a] on lead through the
    records [c], in this order, and then hold [b]. *)
Fixpoint isSeg (next : list (option Z)) (a : Z) (c : list nat) (b : Z) : Prop :=
  match c with
  | [] => a = b
  | i :: c' =>
      a = Z.of_nat i
      /\ exists successor : Z,
           next !! i = Some (Some successor) /\ isSeg next successor c' b
  end.

Definition idsOf (p : BodyPair) : Z * Z := (getID (body1 p), getID (body2 p)).

(** The dense store after the record of cell [i] is removed: the last
    record takes its place (nothing moves when [i] is the last cell). *)
Definition swapRemove (i : nat) (ps : list BodyPair) : list BodyPair :=
  match last ps with
  | Some l => <[i := l]> (take (length ps - 1) ps)
  | None => ps
  end.

Section Invariant.

Context `{IntegerWidths}.

(** The bucket index [table] and the links [next], of [capacity] cells
    each, chain the records [live]: the chain of every bucket [h] ends with
    the sentinel and holds, once each, the live records whose bucket [bkt]
    is [h]. *)
Definition chained (capacity : nat) (table next : list (option Z))
    (live : nat -> Prop) (bkt : nat -> Z) : Prop :=
  length table = capacity
  /\ length next = capacity
  /\ (forall j : nat, live j -> (j < capacity)%nat /\ Z.of_nat j <> INVALID_INDEX)
  /\ forall h : nat, (h < capacity)%nat ->
       exists (head : Z) (c : list nat),
         table !! h = Some (Some head)
         /\ isSeg next head c INVALID_INDEX
         /\ NoDup c
         /\ forall j : nat, j ∈ c <-> live j /\ bkt j = Z.of_nat h.

(** The bucket of the record in cell [j] of the dense store [ps]. *)
Definition bucketAt (mask : Z) (ps : list BodyPair) (j : nat) : Z :=
  match ps !! j with
  | Some p => bucketOfPair mask p
  | None => -1
  end.

(** The allocated manager [m] holds the records [ps], in this order, in
    the cells [0 .. length ps - 1] of its dense store: the records are
    ordered pairs of distinct identifiers, no two for the same identifiers,
    and each is chained in its bucket. *)
Definition represents (m : PairManager) (ps : list BodyPair) : Prop :=
  exists (capacity : nat) (table next : list (option Z))
         (cells : list (option BodyPair)),
    mNbElementsHashTable m = Z.of_nat capacity
    /\ mNbOverlappingPairs m = Z.of_nat (length ps)
    /\ mHashTable m = Some table
    /\ mOffsetNextPair m = Some next
    /\ mOverlappingPairs m = Some cells
    /\ length cells = capacity
    /\ 0 <= mHashMask m < Z.of_nat capacity
    /\ Z.of_nat (length ps) <= INVALID_INDEX
    /\ (forall (j : nat) (p : BodyPair), ps !! j = Some p -> cells !! j = Some (Some p))
    /\ chained capacity table next (fun j => (j < length ps)%nat)
         (bucketAt (mHashMask m) ps)
    /\ (forall p : BodyPair, p ∈ ps -> getID (body1 p) < getID (body2 p))
    /\ NoDup (map idsOf ps).

(** A manager is well formed when it is new or holds some records. *)
Definition wellFormed (m : PairManager) (ps : list BodyPair) : Prop :=
  (m = emptyManager /\ ps = []) \/ represents m ps.

(** The record [addPair] stores for two bodies. *)
Definition sortedPair (ab : CollisionBody * CollisionBody) : BodyPair :=
  let '(b1, b2) := sortBodiesUsingID (fst ab) (snd ab) in mkBodyPair b1 b2.

(** The identifiers of two bodies, smaller first. *)
Definition normalisedIDs (ab : CollisionBody * CollisionBody) : Z * Z :=
  sortIDs (getID (fst ab)) (getID (snd ab)).

(** [addPair] for each pair of the sequence. *)
Fixpoint addAll (m : PairManager) (l : list (CollisionBody * CollisionBody))
  : outcome PairManager :=
  match l with
  | [] => Returned m
  | (a, b) :: l' => let* (m, _) := addPair m a b in addAll m l'
  end.

(** [removePair] for each pair of the sequence; the boolean tells whether
    every call returned true. *)
Fixpoint removeAll (m : PairManager) (l : list (CollisionBody * CollisionBody))
  : outcome (PairManager * bool) :=
  match l with
  | [] => Returned (m, true)
  | (a, b) :: l' =>
      let* (m, found) := removePair m (getID a) (getID b) in
      let* (m, allFound) := removeAll m l' in
      Returned (m, found && allFound)
  end.

End Invariant.

(** *** Keys with the same hash *)

(** The key that [computeHash32Bits] sends to the same value as [key]
    (see [computeHash32Bits_collidingKey]). *)
Definition collidingKey (key : Z) : Z := to_int (1073774593 - key).

(** The two identifiers packed in a 32-bit key: its low and its high 16
    bits. *)
Definition unpackKey (key : Z) : Z * Z := (key mod 2 ^ 16, key / 2 ^ 16).

(** The pair of identifiers whose key is the colliding key of the key of
    [(id1, id2)]. *)
Definition collidingIDs (id1 id2 : Z) : Z * Z :=
  unpackKey (to_uint (collidingKey (to_int (hashKey id1 id2)))).

(** The bits of [x] are set exactly from bit [k] down over a width of [w]. *)
Definition window (k w x : Z) : Prop :=
  forall i : Z, 0 <= i -> Z.testbit x i = (k - w <? i) && (i <=? k).

(** *** Addresses *)

Section Addresses.

Context `{IntegerWidths}.

(** The width of [size_t] and [sizeof(BodyPair)] belong to the platform. *)
Variables size_t_bits sizeofBodyPair : Z.

Definition to_size_t (z : Z) : Z := to_unsigned size_t_bits z.

(** [size_t(p)] for a pointer into the pair array that starts at the
    address [base]. *)
Definition addressValue (base : Z) (p : BodyPairPtr) : Z :=
  match p with
  | NullPlus i => to_size_t (i * sizeofBodyPair)
  | Slot i => to_size_t (base + i * sizeofBodyPair)
  end.

(** [computePairOffset(pair)], with [base] the address held by
    [mOverlappingPairs]: the difference of the two addresses is cast to
    [bodyindex] before it is divided by [sizeof(BodyPair)]. *)
Definition computePairOffset (base : Z) (pair : BodyPairPtr) : Z :=
  to_bodyindex
    (to_bodyindex (to_size_t (addressValue base pair - to_size_t base))
     / sizeofBodyPair).

End Addresses.

(** ** Platforms and sample runs *)

(** An LP64 platform with [bodyindex] an [unsigned long]. *)
Definition widths64 : IntegerWidths :=
  Build_IntegerWidths 64 64 ltac:(lia) ltac:(lia).

(** A 32-bit platform with [bodyindex] an [unsigned short]. *)
Definition widths16 : IntegerWidths :=
  Build_IntegerWidths 32 16 ltac:(lia) ltac:(lia).

(** Scenario A of the spec: the pairs (1,2), (2,3), (1,3) added to a new
    manager. *)
Definition managerScenarioA `{IntegerWidths} : outcome PairManager :=
  let* (m, _) := addPair emptyManager (mkBody 1) (mkBody 2) in
  let* (m, _) := addPair m (mkBody 2) (mkBody 3) in
  let* (m, _) := addPair m (mkBody 1) (mkBody 3) in
  Returned m.

(** Scenario D of the spec: the pairs (1,2) and (1,3) added, then (1,2)
    removed. *)
Definition managerScenarioD `{IntegerWidths} : outcome PairManager :=
  let* (m, _) := addPair emptyManager (mkBody 1) (mkBody 2) in
  let* (m, _) := addPair m (mkBody 1) (mkBody 3) in
  let* (m, _) := removePair m 1 2 in
  Returned m.

(** The manager after [addPair(1, 2)] on a new manager. *)
Definition managerOnePair `{IntegerWidths} : outcome PairManager :=
  let* (m, _) := addPair emptyManager (mkBody 1) (mkBody 2) in
  Returned m.

(** The manager after [addPair(1, 2)] and [removePair(1, 2)]. *)
Definition managerEmptied `{IntegerWidths} : outcome PairManager :=
  let* m := managerOnePair in
  let* (m, _) := removePair m 1 2 in
  Returned m.

(** The manager after adding the pairs (1,2), (2,3), (1,3) and removing
    (1,2) and (1,3): one record left in arrays of four cells. *)
Definition managerOneLeft `{IntegerWidths} : outcome PairManager :=
  let* (m, _) := addPair emptyManager (mkBody 1) (mkBody 2) in
  let* (m, _) := addPair m (mkBody 2) (mkBody 3) in
  let* (m, _) := addPair m (mkBody 1) (mkBody 3) in
  let* (m, _) := removePair m 2 1 in
  let* (m, _) := removePair m 1 3 in
  Returned m.

(** The same manager written out, with a 64-bit [bodyindex]. *)
Definition oneLeftOfFour : PairManager :=
  let invalid := 18446744073709551615 in
  let p23 := mkBodyPair (mkBody 2) (mkBody 3) in
  let p13 := mkBodyPair (mkBody 1) (mkBody 3) in
  mkPairManager 4 3 1
    (Some [Some invalid; Some invalid; Some 0; Some invalid])
    (Some [Some invalid; Some invalid; Some 1; None])
    (Some [Some p23; Some p23; Some p13; None]).

(** The manager after [addPair(1, 2)], written out (64-bit [bodyindex]). *)
Definition onePair : PairManager :=
  mkPairManager 1 0 1
    (Some [Some 0])
    (Some [Some 18446744073709551615])
    (Some [Some (mkBodyPair (mkBody 1) (mkBody 2))]).

(** The manager after [addPair(1, 2)] and [removePair(1, 2)], written out
    (64-bit [bodyindex]): no record, arrays of one cell. *)
Definition emptied : PairManager :=
  mkPairManager 1 0 0
    (Some [Some 18446744073709551615])
    (Some [Some 18446744073709551615])
    (Some [Some (mkBodyPair (mkBody 1) (mkBody 2))]).

(** ** Properties of the hash key *)

Lemma to_unsigned_range (bits z : Z) :
  0 <= bits -> 0 <= to_unsigned bits z < 2 ^ bits.
Proof.
  intros Hb. unfold to_unsigned. apply Z.mod_pos_bound. apply Z.pow_pos_nonneg; lia.
Qed.

Lemma to_unsigned_small (bits z : Z) :
  0 <= z < 2 ^ bits -> to_unsigned bits z = z.
Proof. intros Hz. unfold to_unsigned. apply Z.mod_small. exact Hz. Qed.

(** Below [2^16] the two halves of the key do not overlap: the key is the
    number with [id1] in its low and [id2] in its high 16 bits. *)
Lemma land_low_high (lo hi : Z) :
  0 <= lo < 2 ^ 16 -> Z.land lo (Z.shiftl hi 16) = 0.
Proof.
  intros Hlo. apply Z.bits_inj'. intros n Hn.
  rewrite Z.land_spec, Z.bits_0.
  destruct (Z.lt_ge_cases n 16) as [Hlt | Hge].
  - rewrite (Z.shiftl_spec_low hi 16 n) by lia. apply andb_false_r.
  - destruct (Z.eq_dec lo 0) as [-> | Hnz].
    + rewrite Z.bits_0. reflexivity.
    + rewrite (Z.bits_above_log2 lo n); [reflexivity | lia |].
      apply Z.lt_le_trans with 16; [| lia].
      apply Z.log2_lt_pow2; lia.
Qed.

Lemma hashKey_sum (id1 id2 : Z) :
  0 <= id1 < 2 ^ 16 -> 0 <= id2 < 2 ^ 16 ->
  hashKey id1 id2 = id1 + id2 * 2 ^ 16.
Proof.
  intros H1 H2. unfold hashKey, to_uint.
  rewrite to_unsigned_small by (rewrite Z.shiftl_mul_pow2; lia).
  rewrite <- Z.lxor_lor by (apply land_low_high; lia).
  rewrite <- Z.add_nocarry_lxor by (apply land_low_high; lia).
  rewrite Z.shiftl_mul_pow2 by lia. reflexivity.
Qed.

(** C10.  For identifiers below [2^16] the key [id1 | (id2 << 16)] of
    [computeHashBodies] is injective: two pairs with the same key are the
    same pair. *)
Theorem hashKey_injective (id1 id2 id1' id2' : Z) :
  0 <= id1 < 2 ^ 16 -> 0 <= id2 < 2 ^ 16 ->
  0 <= id1' < 2 ^ 16 -> 0 <= id2' < 2 ^ 16 ->
  hashKey id1 id2 = hashKey id1' id2' ->
  (id1, id2) = (id1', id2').
Proof.
  intros H1 H2 H1' H2' Hkey.
  rewrite !hashKey_sum in Hkey by assumption.
  assert (id1 = id1' /\ id2 = id2') as [-> ->] by lia.
  reflexivity.
Qed.

Lemma hashKey_injective_witness :
  hashKey 5 9 = hashKey 5 9 /\ (5, 9) = (5, 9).
Proof.
  split; [reflexivity |].
  apply (hashKey_injective 5 9 5 9); [lia | lia | lia | lia | reflexivity].
Defined.

(** Above 16 bits the key does collide: [(65536, 0)] and [(0, 1)] have the
    key [65536]. *)
Lemma hashKey_collision_above_16_bits :
  hashKey 65536 0 = hashKey 0 1 /\ (65536, 0) <> (0, 1).
Proof. split; [reflexivity | discriminate]. Qed.

(** ** Normalisation of the identifiers *)

Lemma sortIDs_min_max (id1 id2 : Z) :
  sortIDs id1 id2 = (Z.min id1 id2, Z.max id1 id2).
Proof.
  unfold sortIDs. rewrite Z.gtb_ltb.
  destruct (Z.ltb_spec id2 id1); f_equal; lia.
Qed.

Lemma sortIDs_comm (id1 id2 : Z) : sortIDs id1 id2 = sortIDs id2 id1.
Proof. rewrite !sortIDs_min_max. f_equal; lia. Qed.

(** C7.  [getBodiesIndexPair] returns the ordered identifiers of a pair of
    bodies with distinct identifiers, and its assertion fails exactly when
    the two identifiers are equal; a pair made of a body and itself always
    fails it. *)
Theorem getBodiesIndexPair_self_pair (p : BodyPair) :
  getBodiesIndexPair p =
    (if getID (body1 p) =? getID (body2 p)
     then Fault AssertionFailed
     else Returned (Z.min (getID (body1 p)) (getID (body2 p)),
                    Z.max (getID (body1 p)) (getID (body2 p))))
  /\ (getBodiesIndexPair p = Fault AssertionFailed
      <-> getID (body1 p) = getID (body2 p))
  /\ (forall a : CollisionBody,
        getBodiesIndexPair (mkBodyPair a a) = Fault AssertionFailed).
Proof.
  assert (Heval : forall q : BodyPair,
    getBodiesIndexPair q =
      (if getID (body1 q) =? getID (body2 q)
       then Fault AssertionFailed
       else Returned (Z.min (getID (body1 q)) (getID (body2 q)),
                      Z.max (getID (body1 q)) (getID (body2 q))))).
  { intros [[x] [y]]. unfold getBodiesIndexPair. cbn [body1 body2 getID].
    destruct (Z.ltb_spec x y) as [Hlt | Hge]; cbn [fst snd].
    - destruct (Z.eqb_spec x y) as [Heq | Hne]; [lia |].
      cbn. f_equal. f_equal; lia.
    - destruct (Z.eqb_spec x y) as [Heq | Hne].
      + subst y. rewrite Z.eqb_refl. reflexivity.
      + destruct (Z.eqb_spec y x) as [Heq' | Hne']; [lia |].
        cbn. f_equal. f_equal; lia. }
  split; [apply Heval |]. split.
  - rewrite Heval. destruct (Z.eqb_spec (getID (body1 p)) (getID (body2 p))).
    + tauto.
    + split; [discriminate | tauto].
  - intros a. rewrite Heval. cbn [body1 body2]. rewrite Z.eqb_refl. reflexivity.
Qed.

Section Lookup.

Context `{IntegerWidths}.

(** C8.  On a manager whose hash table was never allocated, [findPair]
    returns NULL at once: no record is visited. *)
Theorem findPair_unallocated (m : PairManager) (id1 id2 : Z) :
  mHashTable m = None ->
  findPair m id1 id2 = mkWalk [] (Returned NULL).
Proof. intros Hnull. unfold findPair. rewrite Hnull. reflexivity. Qed.

(** With an allocated table [findPair] never returns a value, whatever its
    lookup finds. *)
Lemma findPair_allocated_no_value (m : PairManager) (id1 id2 : Z) (p : BodyPairPtr) :
  mHashTable m <> None ->
  result (findPair m id1 id2) <> Returned p.
Proof.
  intros Halloc. unfold findPair.
  destruct (mHashTable m) as [cells |]; [| congruence].
  destruct (sortIDs id1 id2) as [a b]. cbn [result].
  destruct (result (lookForAPair m a b (bucketOf m a b))); cbn; discriminate.
Qed.

End Lookup.

Lemma findPair_unallocated_witness :
  findPair (H := widths64) emptyManager 5 9 = mkWalk [] (Returned NULL).
Proof. apply (findPair_unallocated (H := widths64) emptyManager 5 9). reflexivity. Defined.


(** ** Powers of two *)

Lemma smallestPowerOfTwoGeq_spec (n : Z) :
  isSmallestPowerOfTwoGeq n (smallestPowerOfTwoGeq n).
Proof.
  unfold isSmallestPowerOfTwoGeq, smallestPowerOfTwoGeq, isPowerOfTwo.
  pose proof (Z.log2_up_nonneg n) as Hk.
  split; [exists (Z.log2_up n); split; [exact Hk | reflexivity] |].
  destruct (Z.le_gt_cases n 0) as [Hle | Hpos].
  - rewrite Z.log2_up_eqn0 by lia. split; [simpl; lia |].
    intros p [j [Hj ->]] _. apply (Z.pow_le_mono_r 2 0 j); lia.
  - split; [apply Z.log2_log2_up_spec; exact Hpos |].
    intros p [j [Hj ->]] Hnp. apply Z.pow_le_mono_r; [lia |].
    apply Z.log2_up_le_pow2; assumption.
Qed.

Lemma filled_start (n : Z) : 0 < n -> filled (Z.log2 n) 1 n.
Proof.
  intros Hn. split.
  - intros i Hi. apply Z.bits_above_log2; lia.
  - intros i Hi Hw. replace i with (Z.log2 n) by lia. apply Z.bit_log2. exact Hn.
Qed.

(** One step [x |= x >> w] of the SWAR loop doubles the filled width. *)
Lemma filled_step (k w x : Z) :
  0 <= k -> 0 < w -> filled k w x -> filled k (2 * w) (Z.lor x (Z.shiftr x w)).
Proof.
  intros Hk Hw [Habove Hbelow]. split.
  - intros i Hi. rewrite Z.lor_spec, Z.shiftr_spec by lia.
    rewrite (Habove i), (Habove (i + w)) by lia. reflexivity.
  - intros i Hi Hwidth. rewrite Z.lor_spec, Z.shiftr_spec by lia.
    destruct (Z.lt_ge_cases (k - i) w) as [Hnear | Hfar].
    + rewrite (Hbelow i) by lia. reflexivity.
    + rewrite (Hbelow (i + w)) by lia. apply orb_true_r.
Qed.

Lemma filled_ones (k w x : Z) :
  0 <= k < w -> filled k w x -> x = Z.ones (k + 1).
Proof.
  intros Hk [Habove Hbelow]. apply Z.bits_inj'. intros i Hi.
  rewrite Z.testbit_ones_nonneg by lia.
  destruct (Z.ltb_spec i (k + 1)).
  - apply Hbelow; lia.
  - apply Habove; lia.
Qed.

Section NextPowerOfTwo.

Context `{IntegerWidths}.

(** Below [2^31] [computeNextPowerOfTwo] returns the power of two just
    above the highest set bit of its argument: the smallest power of two
    that is strictly greater than the argument. *)
Lemma computeNextPowerOfTwo_spec (n : Z) :
  0 <= n < 2 ^ 31 ->
  computeNextPowerOfTwo n = smallestPowerOfTwoGeq (n + 1).
Proof.
  intros Hn. pose proof luint_bits_min as Hbits.
  assert (Hsmall : forall j : Z, 0 <= j <= 31 -> to_luint (2 ^ j) = 2 ^ j).
  { intros j Hj. apply to_unsigned_small. split; [apply Z.pow_nonneg; lia |].
    apply Z.pow_lt_mono_r; lia. }
  unfold computeNextPowerOfTwo, smallestPowerOfTwoGeq.
  destruct (Z.eq_dec n 0) as [-> | Hnz].
  - exact (Hsmall 0 ltac:(lia)).
  - assert (Hpos : 0 < n) by lia.
    pose proof (Z.log2_nonneg n) as Hk0.
    assert (Hk : Z.log2 n < 31) by (apply Z.log2_lt_pow2; lia).
    pose proof (filled_start n Hpos) as F.
    apply (filled_step _ 1) in F; [| lia | lia].
    apply (filled_step _ 2) in F; [| lia | lia].
    apply (filled_step _ 4) in F; [| lia | lia].
    apply (filled_step _ 8) in F; [| lia | lia].
    apply (filled_step _ 16) in F; [| lia | lia].
    apply (filled_ones _ (2 * 16)) in F; [| lia].
    cbv zeta. rewrite F, Z.ones_equiv.
    replace (Z.pred (2 ^ (Z.log2 n + 1)) + 1) with (2 ^ (Z.log2 n + 1)) by lia.
    rewrite Hsmall by lia. f_equal.
    rewrite Z.log2_up_eqn by lia.
    replace (Z.pred (n + 1)) with n by lia. lia.
Qed.

End NextPowerOfTwo.

(** ** Reallocation *)

Lemma land_mask_range (a mask : Z) :
  0 <= mask -> 0 <= Z.land a mask <= mask.
Proof.
  intros Hmask. split; [apply Z.land_nonneg; right; exact Hmask |].
  assert (Hsub : Z.ldiff (Z.land a mask) mask = 0).
  { apply Z.bits_inj'. intros n Hn.
    rewrite Z.ldiff_spec, Z.land_spec, Z.bits_0.
    destruct (Z.testbit a n), (Z.testbit mask n); reflexivity. }
  apply Z.sub_nocarry_ldiff in Hsub.
  assert (0 <= Z.ldiff mask (Z.land a mask)) by (apply Z.ldiff_nonneg; left; exact Hmask).
  lia.
Qed.

Lemma readCell_Some {A : Type} (cells : list (option A)) (i : nat) (x : A) :
  cells !! i = Some (Some x) -> readCell (Some cells) (Z.of_nat i) = Returned x.
Proof.
  intros Hi. unfold readCell.
  destruct (Z.ltb_spec (Z.of_nat i) 0); [lia |].
  rewrite Nat2Z.id, Hi. reflexivity.
Qed.

Lemma readCell_Returned {A : Type} (a : array A) (i : Z) (x : A) :
  readCell a i = Returned x ->
  exists cells : list (option A),
    a = Some cells /\ 0 <= i /\ cells !! Z.to_nat i = Some (Some x).
Proof.
  unfold readCell. destruct a as [cells |]; [| discriminate].
  destruct (Z.ltb_spec i 0); [discriminate |].
  destruct (cells !! Z.to_nat i) as [[y |] |] eqn:Hcell; try discriminate.
  intros [= ->]. exists cells. auto.
Qed.

Lemma writeCell_Some {A : Type} (cells : list (option A)) (i : nat) (x : A) :
  (i < length cells)%nat ->
  writeCell (Some cells) (Z.of_nat i) x = Returned (Some (<[i := Some x]> cells)).
Proof.
  intros Hi. unfold writeCell.
  destruct (Z.leb_spec 0 (Z.of_nat i)); [| lia].
  destruct (Z.ltb_spec (Z.of_nat i) (Z.of_nat (length cells))); [| lia].
  rewrite Nat2Z.id. reflexivity.
Qed.

Lemma readCell_at {A : Type} (cells : list (option A)) (i : Z) (x : A) :
  0 <= i -> cells !! Z.to_nat i = Some (Some x) -> readCell (Some cells) i = Returned x.
Proof.
  intros Hi Hcell. rewrite <- (Z2Nat.id i) by exact Hi. apply readCell_Some. exact Hcell.
Qed.

Lemma writeCell_at {A : Type} (cells : list (option A)) (i : Z) (x : A) :
  0 <= i < Z.of_nat (length cells) ->
  writeCell (Some cells) i x = Returned (Some (<[Z.to_nat i := Some x]> cells)).
Proof.
  intros Hi. rewrite <- (Z2Nat.id i) at 1 by lia. apply writeCell_Some. lia.
Qed.

Section Reallocation.

Context `{IntegerWidths}.

Lemma bucket_range (id1 id2 mask : Z) :
  0 <= mask -> 0 <= bucket mask id1 id2 <= mask.
Proof. apply land_mask_range. Qed.

Lemma rehashPair_rehashed (capacity : nat) (mask : Z) (pairs : array BodyPair)
    (acc : outcome (array Z * array Z)) (i : nat) :
  0 <= mask < Z.of_nat capacity ->
  (i < capacity)%nat ->
  (exists p : BodyPair, readCell pairs (Z.of_nat i) = Returned p) ->
  rehashed capacity acc ->
  rehashed capacity (rehashPair mask pairs acc i).
Proof.
  intros Hmask Hi [p Hp] (table & next & -> & Htable & Hnext & Hfull).
  unfold rehashPair. cbn [bind]. rewrite Hp. cbn [bind].
  unfold bucketOfPair. set (h := bucket mask _ _).
  assert (Hh : 0 <= h <= mask) by (apply bucket_range; lia).
  assert (Hhn : (Z.to_nat h < capacity)%nat) by lia.
  destruct (Hfull _ Hhn) as [head Hhead].
  rewrite <- (Z2Nat.id h) by lia.
  rewrite (readCell_Some _ _ _ Hhead). cbn [bind].
  rewrite writeCell_Some by lia. cbn [bind].
  rewrite writeCell_Some by lia. cbn [bind].
  exists (<[Z.to_nat h := Some (Z.of_nat i)]> table), (<[i := Some head]> next).
  split; [reflexivity |]. rewrite !length_insert.
  split; [exact Htable |]. split; [exact Hnext |].
  intros j Hj. destruct (Nat.eq_dec (Z.to_nat h) j) as [<- | Hne].
  - exists (Z.of_nat i). apply list_lookup_insert_eq. lia.
  - rewrite list_lookup_insert_ne by exact Hne. apply Hfull. exact Hj.
Qed.

Lemma foldl_rehashPair_rehashed (capacity : nat) (mask : Z) (pairs : array BodyPair)
    (l : list nat) (acc : outcome (array Z * array Z)) :
  0 <= mask < Z.of_nat capacity ->
  (forall i : nat, i ∈ l ->
     (i < capacity)%nat /\ exists p : BodyPair, readCell pairs (Z.of_nat i) = Returned p) ->
  rehashed capacity acc ->
  rehashed capacity (foldl (rehashPair mask pairs) acc l).
Proof.
  intros Hmask. revert acc. induction l as [| i l IH]; intros acc Hl Hacc.
  - exact Hacc.
  - cbn [foldl]. apply IH.
    + intros j Hj. apply Hl. right. exact Hj.
    + destruct (Hl i) as [Hi Hp]; [left |].
      apply rehashPair_rehashed; assumption.
Qed.

Lemma movePairs_returns (capacity count : nat) (old : array BodyPair) :
  (count <= capacity)%nat ->
  (forall i : nat, (i < count)%nat ->
     exists p : BodyPair, readCell old (Z.of_nat i) = Returned p) ->
  exists cells : list (option BodyPair),
    movePairs capacity count old = Returned (Some cells)
    /\ length cells = capacity
    /\ forall i : nat, (i < count)%nat ->
         readCell (Some cells) (Z.of_nat i) = readCell old (Z.of_nat i).
Proof.
  intros Hcap Hvalid. unfold movePairs. destruct count as [| count'].
  - exists (replicate capacity None). rewrite length_replicate.
    split; [reflexivity |]. split; [reflexivity |]. intros i Hi. lia.
  - set (count := S count') in *.
    destruct (Hvalid count') as [p Hp]; [lia |].
    apply readCell_Returned in Hp as (cells & -> & _ & Hcell).
    rewrite Nat2Z.id in Hcell. apply lookup_lt_Some in Hcell.
    destruct (Nat.leb_spec count (length cells)); [| lia].
    destruct (Nat.leb_spec count capacity); [| lia]. cbn [andb].
    eexists. split; [reflexivity |].
    rewrite length_app, length_take, length_replicate.
    split; [lia |]. intros i Hi. unfold readCell.
    destruct (Z.ltb_spec (Z.of_nat i) 0); [lia |]. rewrite Nat2Z.id.
    rewrite lookup_app_l by (rewrite length_take; lia).
    rewrite lookup_take_lt by lia. reflexivity.
Qed.

(** On a valid dense store that fits the new capacity, with a mask inside
    the new bucket index, [reallocatePairs] returns; it keeps the three
    scalar fields and gives each array [mNbElementsHashTable] cells. *)
Lemma reallocatePairs_returns (m : PairManager) :
  denseStoreValid m ->
  mNbOverlappingPairs m <= mNbElementsHashTable m ->
  0 <= mHashMask m < mNbElementsHashTable m ->
  exists m' : PairManager,
    reallocatePairs m = Returned m'
    /\ mNbElementsHashTable m' = mNbElementsHashTable m
    /\ mHashMask m' = mHashMask m
    /\ mNbOverlappingPairs m' = mNbOverlappingPairs m
    /\ cellsOf (mHashTable m') = Some (mNbElementsHashTable m)
    /\ cellsOf (mOffsetNextPair m') = Some (mNbElementsHashTable m)
    /\ cellsOf (mOverlappingPairs m') = Some (mNbElementsHashTable m)
    /\ denseStoreValid m'.
Proof.
  intros [Hcount Hvalid] Hfit Hmask. unfold reallocatePairs.
  set (capacity := Z.to_nat (mNbElementsHashTable m)).
  set (count := Z.to_nat (mNbOverlappingPairs m)).
  assert (Hvalid' : forall i : nat, (i < count)%nat ->
            exists p, readCell (mOverlappingPairs m) (Z.of_nat i) = Returned p).
  { intros i Hi. apply Hvalid. lia. }
  destruct (movePairs_returns capacity count (mOverlappingPairs m))
    as (cells & -> & Hlen & Hsame); [lia | exact Hvalid' |].
  cbn [bind].
  destruct (foldl_rehashPair_rehashed capacity (mHashMask m) (Some cells) (seq 0 count)
              (Returned (Some (replicate capacity (Some INVALID_INDEX)),
                         Some (replicate capacity None))))
    as (table & next & -> & Htable & Hnext & _).
  - lia.
  - intros i Hi. apply elem_of_seq in Hi. split; [lia |].
    rewrite Hsame by lia. apply Hvalid'. lia.
  - eexists _, _. split; [reflexivity |]. rewrite !length_replicate.
    split; [reflexivity |]. split; [reflexivity |].
    intros j Hj. exists INVALID_INDEX. apply lookup_replicate_2. exact Hj.
  - cbn [bind]. eexists. split; [reflexivity |].
    cbn [mNbElementsHashTable mHashMask mNbOverlappingPairs mHashTable
         mOffsetNextPair mOverlappingPairs cellsOf].
    rewrite Htable, Hnext, Hlen.
    replace (Z.of_nat capacity) with (mNbElementsHashTable m) by lia.
    repeat split; try reflexivity; try exact Hcount.
    intros i Hi. cbn [mNbOverlappingPairs mOverlappingPairs] in *.
    rewrite <- (Z2Nat.id i) by lia. rewrite Hsame by lia.
    apply Hvalid'. lia.
Qed.

End Reallocation.

(** ** Shrinking *)

Lemma smallestPowerOfTwoGeq_succ_bound (n : Z) :
  0 <= n -> n + 1 <= smallestPowerOfTwoGeq (n + 1) <= Z.max 1 (2 * n).
Proof.
  intros Hn. split; [apply (smallestPowerOfTwoGeq_spec (n + 1)) |].
  unfold smallestPowerOfTwoGeq. destruct (Z.eq_dec n 0) as [-> | Hnz].
  - vm_compute. discriminate.
  - rewrite Z.log2_up_eqn by lia. replace (Z.pred (n + 1)) with n by lia.
    pose proof (Z.log2_spec n ltac:(lia)) as [Hlow _].
    pose proof (Z.log2_nonneg n).
    rewrite Z.pow_succ_r by lia. lia.
Qed.

Lemma smallestPowerOfTwoGeq_le_pow2 (n j : Z) :
  0 <= j -> n <= 2 ^ j -> smallestPowerOfTwoGeq n <= 2 ^ j.
Proof.
  intros Hj Hn. apply (smallestPowerOfTwoGeq_spec n); [| exact Hn].
  exists j. split; [exact Hj | reflexivity].
Qed.

Section Shrinking.

Context `{IntegerWidths}.

(** What [shrinkMemory] does on a valid dense store of less than [2^31]
    records whose double fits a [bodyindex]: it returns; the capacity is
    then the smallest power of two that is at least [count + 1]; nothing
    changes when the capacity had that value already; otherwise the mask
    is the capacity minus one and each array has that many cells. *)
Lemma shrinkMemory_resizes (m : PairManager) :
  denseStoreValid m ->
  mNbOverlappingPairs m < 2 ^ 31 ->
  2 * mNbOverlappingPairs m < 2 ^ bodyindex_bits ->
  exists m' : PairManager,
    shrinkMemory m = Returned m'
    /\ mNbElementsHashTable m' = smallestPowerOfTwoGeq (mNbOverlappingPairs m + 1)
    /\ mNbOverlappingPairs m' = mNbOverlappingPairs m
    /\ (mNbElementsHashTable m = smallestPowerOfTwoGeq (mNbOverlappingPairs m + 1) ->
        m' = m)
    /\ (mNbElementsHashTable m <> smallestPowerOfTwoGeq (mNbOverlappingPairs m + 1) ->
        mHashMask m' = mNbElementsHashTable m' - 1
        /\ mHashMask m' = to_uint (mNbElementsHashTable m' - 1)
        /\ cellsOf (mHashTable m') = Some (mNbElementsHashTable m')
        /\ cellsOf (mOffsetNextPair m') = Some (mNbElementsHashTable m')
        /\ cellsOf (mOverlappingPairs m') = Some (mNbElementsHashTable m')).
Proof.
  intros Hvalid H31 Hfit. pose proof Hvalid as [Hcount _].
  pose proof luint_bits_min as Hl. pose proof bodyindex_bits_min as Hb.
  set (n := mNbOverlappingPairs m) in *.
  set (c := smallestPowerOfTwoGeq (n + 1)).
  pose proof (smallestPowerOfTwoGeq_succ_bound n Hcount) as [Hlow Hup]. fold c in Hlow, Hup.
  assert (Hc31 : c <= 2 ^ 31) by (apply smallestPowerOfTwoGeq_le_pow2; lia).
  assert (H16 : 2 ^ 16 <= 2 ^ bodyindex_bits) by (apply Z.pow_le_mono_r; lia).
  assert (H32 : 2 ^ 32 <= 2 ^ luint_bits) by (apply Z.pow_le_mono_r; lia).
  assert (Hcorrect : to_bodyindex (computeNextPowerOfTwo (to_luint n)) = c).
  { unfold to_luint. rewrite to_unsigned_small by lia.
    rewrite computeNextPowerOfTwo_spec by lia. fold c.
    apply to_unsigned_small. lia. }
  unfold shrinkMemory. fold n. rewrite Hcorrect.
  destruct (Z.eqb_spec (mNbElementsHashTable m) c) as [Heq | Hne].
  - exists m. split; [reflexivity |]. split; [exact Heq |]. split; [reflexivity |].
    split; [reflexivity |]. intros Hdiff. contradiction.
  - assert (Hmask : to_uint (c - 1) = c - 1) by (apply to_unsigned_small; lia).
    destruct (reallocatePairs_returns
                (mkPairManager c (to_uint (c - 1)) n
                   (mHashTable m) (mOffsetNextPair m) (mOverlappingPairs m)))
      as (m' & -> & Hcap & Hmask' & Hn' & Ht & Hnx & Hp & _).
    + exact Hvalid.
    + cbn. lia.
    + cbn. lia.
    + cbn in Hcap, Hmask', Hn', Ht, Hnx, Hp.
      exists m'. split; [reflexivity |]. split; [exact Hcap |]. split; [exact Hn' |].
      split; [intros Heq; contradiction |]. intros _.
      rewrite Hcap, Hmask'.
      split; [exact Hmask |]. split; [reflexivity |].
      split; [exact Ht |]. split; [exact Hnx | exact Hp].
Qed.

(** C2, as the code has it.  On a valid dense store of [count] records,
    [count] below [2^31] and [2 * count] within a [bodyindex],
    [shrinkMemory] sets [mNbElementsHashTable] to the smallest power of two
    that is at least [count + 1], that is, strictly greater than [count];
    it changes nothing when the capacity has that value already, and
    otherwise the bucket index and the dense store get that many cells. *)
Theorem shrinkMemory_capacity (m : PairManager) :
  denseStoreValid m ->
  mNbOverlappingPairs m < 2 ^ 31 ->
  2 * mNbOverlappingPairs m < 2 ^ bodyindex_bits ->
  exists m' : PairManager,
    shrinkMemory m = Returned m'
    /\ isSmallestPowerOfTwoGeq (mNbOverlappingPairs m + 1) (mNbElementsHashTable m')
    /\ mNbOverlappingPairs m < mNbElementsHashTable m'
    /\ mNbOverlappingPairs m' = mNbOverlappingPairs m
    /\ (isSmallestPowerOfTwoGeq (mNbOverlappingPairs m + 1) (mNbElementsHashTable m) ->
        m' = m)
    /\ (~ isSmallestPowerOfTwoGeq (mNbOverlappingPairs m + 1) (mNbElementsHashTable m) ->
        cellsOf (mHashTable m') = Some (mNbElementsHashTable m')
        /\ cellsOf (mOffsetNextPair m') = Some (mNbElementsHashTable m')
        /\ cellsOf (mOverlappingPairs m') = Some (mNbElementsHashTable m')).
Proof.
  intros Hvalid H31 Hfit.
  destruct (shrinkMemory_resizes m Hvalid H31 Hfit)
    as (m' & Hrun & Hcap & Hn & Hsame & Hresized).
  pose proof (smallestPowerOfTwoGeq_spec (mNbOverlappingPairs m + 1)) as Hspec.
  assert (Huniq : forall c : Z,
            isSmallestPowerOfTwoGeq (mNbOverlappingPairs m + 1) c ->
            c = smallestPowerOfTwoGeq (mNbOverlappingPairs m + 1)).
  { intros c (Hp & Hge & Hmin). destruct Hspec as (Hp' & Hge' & Hmin').
    apply Z.le_antisymm; [apply Hmin | apply Hmin']; assumption. }
  exists m'. split; [exact Hrun |]. rewrite Hcap.
  split; [exact Hspec |].
  split; [destruct Hspec as (_ & Hge & _); lia |].
  split; [exact Hn |]. split.
  - intros Hm. apply Hsame, Huniq, Hm.
  - intros Hm. rewrite <- Hcap. apply Hresized. intros Heq. apply Hm.
    rewrite Heq. exact Hspec.
Qed.

End Shrinking.

Lemma denseStoreValid_oneLeftOfFour : denseStoreValid oneLeftOfFour.
Proof.
  split; [cbn; lia |]. cbn [oneLeftOfFour mNbOverlappingPairs mOverlappingPairs].
  intros i Hi. replace i with 0 by lia. eexists. reflexivity.
Qed.

Lemma shrinkMemory_capacity_witness :
  exists m' : PairManager,
    shrinkMemory (H := widths64) oneLeftOfFour = Returned m'
    /\ isSmallestPowerOfTwoGeq 2 (mNbElementsHashTable m').
Proof.
  destruct (shrinkMemory_capacity (H := widths64) oneLeftOfFour)
    as (m' & Hrun & Hcap & _).
  - exact denseStoreValid_oneLeftOfFour.
  - cbn. lia.
  - cbn. lia.
  - exists m'. split; [exact Hrun | exact Hcap].
Defined.

(** C2, as the spec has it, fails.  After the pairs (1,2), (2,3), (1,3) were
    added and (1,2), (1,3) removed, one record is left; [shrinkMemory] sets
    the capacity to 2, and the smallest power of two that is at least 1
    is 1. *)
Lemma shrinkMemory_capacity_not_geq_count :
  managerOneLeft (H := widths64) = Returned oneLeftOfFour
  /\ denseStoreValid oneLeftOfFour
  /\ mNbOverlappingPairs oneLeftOfFour = 1
  /\ (exists m' : PairManager,
        shrinkMemory (H := widths64) oneLeftOfFour = Returned m'
        /\ mNbElementsHashTable m' = 2
        /\ cellsOf (mHashTable m') = Some 2
        /\ cellsOf (mOverlappingPairs m') = Some 2)
  /\ isSmallestPowerOfTwoGeq 1 1
  /\ ~ isSmallestPowerOfTwoGeq 1 2.
Proof.
  split; [vm_compute; reflexivity |].
  split; [exact denseStoreValid_oneLeftOfFour |].
  split; [reflexivity |].
  split; [eexists; split; [vm_compute; reflexivity | repeat split] |].
  split.
  - exact (smallestPowerOfTwoGeq_spec 1).
  - intros (_ & _ & Hmin). specialize (Hmin 1). 
    assert (2 <= 1); [| lia]. apply Hmin; [| lia]. exists 0. split; [lia | reflexivity].
Qed.

(** ** The bucket index *)

Section BucketIndex.

Context `{IntegerWidths}.

(** C6.  When the bucket index has [mNbElementsHashTable] cells, that
    number is a power of two and [mHashMask] is [mNbElementsHashTable - 1]
    (as a [uint]), the bucket [computeHashBodies(id1, id2) & mHashMask] of
    any two identifiers lies in [[0, capacity)] and the bucket index has a
    cell there. *)
Theorem bucket_index_in_bounds (m : PairManager) (id1 id2 : Z) :
  isPowerOfTwo (mNbElementsHashTable m) ->
  mHashMask m = to_uint (mNbElementsHashTable m - 1) ->
  cellsOf (mHashTable m) = Some (mNbElementsHashTable m) ->
  0 <= bucketOf m id1 id2 < mNbElementsHashTable m
  /\ exists (cells : list (option Z)) (cell : option Z),
       mHashTable m = Some cells
       /\ cells !! Z.to_nat (bucketOf m id1 id2) = Some cell.
Proof.
  intros [k [Hk Hpow]] Hmask Hcells.
  assert (Hcap : 0 < mNbElementsHashTable m)
    by (rewrite Hpow; apply Z.pow_pos_nonneg; lia).
  assert (Hm : 0 <= mHashMask m <= mNbElementsHashTable m - 1).
  { rewrite Hmask. unfold to_uint, to_unsigned. split.
    - apply Z.mod_pos_bound. lia.
    - apply Z.mod_le; lia. }
  assert (Hb : 0 <= bucketOf m id1 id2 <= mHashMask m)
    by (apply bucket_range; lia).
  split; [lia |].
  destruct (mHashTable m) as [cells |]; [| discriminate].
  cbn in Hcells. injection Hcells as Hlen.
  destruct (lookup_lt_is_Some_2 cells (Z.to_nat (bucketOf m id1 id2))) as [cell Hcell];
    [lia |].
  exists cells, cell. split; [reflexivity | exact Hcell].
Qed.

(** When [shrinkMemory] resizes, it leaves a bucket index whose size is a
    power of two, with the mask one less. *)
Lemma shrinkMemory_bucket_index (m : PairManager) :
  denseStoreValid m ->
  mNbOverlappingPairs m < 2 ^ 31 ->
  2 * mNbOverlappingPairs m < 2 ^ bodyindex_bits ->
  exists m' : PairManager,
    shrinkMemory m = Returned m'
    /\ (mNbElementsHashTable m' <> mNbElementsHashTable m ->
        isPowerOfTwo (mNbElementsHashTable m')
        /\ mHashMask m' = to_uint (mNbElementsHashTable m' - 1)
        /\ cellsOf (mHashTable m') = Some (mNbElementsHashTable m')).
Proof.
  intros Hvalid H31 Hfit.
  destruct (shrinkMemory_resizes m Hvalid H31 Hfit)
    as (m' & Hrun & Hcap & _ & _ & Hresized).
  exists m'. split; [exact Hrun |]. intros Hdiff.
  destruct Hresized as (_ & Hmask & Ht & _); [congruence |].
  split; [| split; assumption].
  rewrite Hcap. apply (smallestPowerOfTwoGeq_spec (mNbOverlappingPairs m + 1)).
Qed.

End BucketIndex.

Lemma bucket_index_in_bounds_witness :
  0 <= bucketOf oneLeftOfFour 5 9 < 4.
Proof.
  apply (bucket_index_in_bounds oneLeftOfFour 5 9).
  - exists 2. split; [lia | reflexivity].
  - reflexivity.
  - reflexivity.
Defined.

(** ** Iteration over the dense store *)

Lemma denseStoreValid_allocated (m : PairManager) :
  denseStoreValid m -> 0 < mNbOverlappingPairs m ->
  exists cells : list (option BodyPair), mOverlappingPairs m = Some cells.
Proof.
  intros [_ Hvalid] Hpos. destruct (Hvalid 0) as [p Hp]; [lia |].
  apply readCell_Returned in Hp as (cells & Hcells & _). exists cells. exact Hcells.
Qed.

Lemma slots_NoDup (n : nat) :
  NoDup (map (fun k : nat => Slot (Z.of_nat k)) (seq 0 n)).
Proof.
  apply NoDup_fmap_2; [| apply NoDup_seq].
  intros i j [= Hij]. lia.
Qed.

(** C5, as the code has it.  On a valid dense store of [count >= 1] records
    the begin pointer is the address of cell 0 and the end pointer the
    address of cell [count - 1], the last record and not one past it.  The
    pointers from begin up to and including end are the addresses of the
    cells [0 .. count - 1]: [count] of them, without repetition, each of a
    record that can be read.  The walk that stops before the end pointer
    leaves the last record out. *)
Theorem overlappingPairs_range (m : PairManager) :
  denseStoreValid m ->
  0 < mNbOverlappingPairs m ->
  beginOverlappingPairsPointer m = Slot 0
  /\ endOverlappingPairsPointer m = Slot (mNbOverlappingPairs m - 1)
  /\ rangeInclusive (beginOverlappingPairsPointer m) (endOverlappingPairsPointer m)
     = validRange m
  /\ length (validRange m) = Z.to_nat (mNbOverlappingPairs m)
  /\ NoDup (validRange m)
  /\ (forall p : BodyPairPtr, p ∈ validRange m ->
        exists r : BodyPair, deref m p = Returned r)
  /\ rangeHalfOpen (beginOverlappingPairsPointer m) (endOverlappingPairsPointer m)
       ++ [endOverlappingPairsPointer m]
     = validRange m.
Proof.
  intros Hvalid Hpos.
  destruct (denseStoreValid_allocated m Hvalid Hpos) as [cells Hcells].
  unfold beginOverlappingPairsPointer, endOverlappingPairsPointer, validRange.
  rewrite Hcells. cbn [addressOf].
  destruct (Z.gtb_spec (mNbOverlappingPairs m) 0) as [_ | Hle]; [| lia].
  set (n := mNbOverlappingPairs m) in *.
  assert (Hptr : forall k : nat, ptrPlus (Slot 0) (Z.of_nat k) = Slot (Z.of_nat k))
    by reflexivity.
  split; [reflexivity |]. split; [reflexivity |].
  split.
  { unfold rangeInclusive. cbn [ptrIndex].
    replace (n - 1 - 0 + 1) with n by lia. reflexivity. }
  split; [rewrite length_map, length_seq; reflexivity |].
  split; [apply slots_NoDup |].
  split.
  { intros p Hp. apply list_elem_of_fmap in Hp as (k & -> & Hk).
    apply elem_of_seq in Hk. cbn [deref].
    destruct Hvalid as [_ Hread]. apply Hread. lia. }
  unfold rangeHalfOpen. cbn [ptrIndex].
  replace (n - 1 - 0) with (n - 1) by lia.
  replace (Z.to_nat n) with (S (Z.to_nat (n - 1))) by lia.
  rewrite seq_S, map_app. cbn [map Nat.add].
  do 3 f_equal. lia.
Qed.

Lemma denseStoreValid_onePair : denseStoreValid onePair.
Proof.
  split; [cbn; lia |]. cbn [onePair mNbOverlappingPairs mOverlappingPairs].
  intros i Hi. replace i with 0 by lia. eexists. reflexivity.
Qed.

Lemma denseStoreValid_emptied : denseStoreValid emptied.
Proof.
  split; [cbn; lia |]. cbn [emptied mNbOverlappingPairs]. intros i Hi. lia.
Qed.

Lemma overlappingPairs_range_witness :
  rangeInclusive (beginOverlappingPairsPointer onePair) (endOverlappingPairsPointer onePair)
  = validRange onePair.
Proof.
  apply (overlappingPairs_range onePair).
  - exact denseStoreValid_onePair.
  - cbn. lia.
Defined.

(** C5, as the spec has it, fails whichever way the consumer walks.  With
    one record, the walk that takes the end pointer for one past the end
    visits nothing.  With no record in allocated arrays, the walk that
    takes the end pointer for the last element visits cell 0, which holds
    no valid record; on a manager that never allocated, it visits the null
    pointer. *)
Lemma overlappingPairs_range_not_exact :
  (managerOnePair (H := widths64) = Returned onePair
   /\ denseStoreValid onePair
   /\ mNbOverlappingPairs onePair = 1
   /\ rangeHalfOpen (beginOverlappingPairsPointer onePair)
        (endOverlappingPairsPointer onePair) = []
   /\ validRange onePair = [Slot 0])
  /\ (managerEmptied (H := widths64) = Returned emptied
      /\ denseStoreValid emptied
      /\ mNbOverlappingPairs emptied = 0
      /\ rangeInclusive (beginOverlappingPairsPointer emptied)
           (endOverlappingPairsPointer emptied) = [Slot 0]
      /\ validRange emptied = [])
  /\ (mNbOverlappingPairs emptyManager = 0
      /\ rangeInclusive (beginOverlappingPairsPointer emptyManager)
           (endOverlappingPairsPointer emptyManager) = [NULL]
      /\ validRange emptyManager = []).
Proof.
  split; [| split].
  - split; [vm_compute; reflexivity |].
    split; [exact denseStoreValid_onePair |]. repeat split.
  - split; [vm_compute; reflexivity |].
    split; [exact denseStoreValid_emptied |]. repeat split.
  - repeat split.
Qed.

(** C9, as the code has it.  With no record, the end pointer is the address
    of cell 0 of the pair array, the pointer that begin returns; it is the
    null pointer exactly when the pair array was never allocated.  Whatever
    the number of records, begin and end are the same pointer exactly when
    there is at most one record. *)
Theorem endOverlappingPairsPointer_empty (m : PairManager) :
  0 <= mNbOverlappingPairs m ->
  (mNbOverlappingPairs m = 0 ->
     endOverlappingPairsPointer m = beginOverlappingPairsPointer m
     /\ endOverlappingPairsPointer m = addressOf (mOverlappingPairs m) 0
     /\ (endOverlappingPairsPointer m = NULL <-> mOverlappingPairs m = None))
  /\ (beginOverlappingPairsPointer m = endOverlappingPairsPointer m
      <-> mNbOverlappingPairs m <= 1).
Proof.
  intros Hcount.
  unfold endOverlappingPairsPointer, beginOverlappingPairsPointer, NULL.
  split.
  - intros ->. cbn. split; [reflexivity |]. split; [reflexivity |].
    destruct (mOverlappingPairs m); cbn; split; intros Heq; congruence.
  - destruct (Z.gtb_spec (mNbOverlappingPairs m) 0) as [Hpos | Hle].
    + destruct (mOverlappingPairs m); cbn; split; intros Heq;
        try (injection Heq as Heq); try lia; f_equal; lia.
    + split; [lia | reflexivity].
Qed.

Lemma endOverlappingPairsPointer_empty_witness :
  endOverlappingPairsPointer emptied = beginOverlappingPairsPointer emptied
  /\ (beginOverlappingPairsPointer onePair = endOverlappingPairsPointer onePair
      <-> mNbOverlappingPairs onePair <= 1).
Proof.
  split.
  - destruct (endOverlappingPairsPointer_empty emptied) as [Hempty _]; [cbn; lia |].
    apply Hempty. reflexivity.
  - destruct (endOverlappingPairsPointer_empty onePair) as [_ Hsame]; [cbn; lia |].
    exact Hsame.
Defined.

(** C9, as the spec has it, fails.  With one record the two pointers are
    equal as well, so their comparison does not tell an empty manager from
    one with a single pair; and on a manager that never allocated, the end
    pointer is the null pointer. *)
Lemma endOverlappingPairsPointer_not_emptiness_test :
  (managerOnePair (H := widths64) = Returned onePair
   /\ mNbOverlappingPairs onePair = 1
   /\ beginOverlappingPairsPointer onePair = Slot 0
   /\ endOverlappingPairsPointer onePair = Slot 0)
  /\ (mNbOverlappingPairs emptyManager = 0
      /\ endOverlappingPairsPointer emptyManager = NULL).
Proof.
  split.
  - split; [vm_compute; reflexivity |]. repeat split.
  - split; reflexivity.
Qed.

(** ** The lookup of [findPair] *)

(** C1, on the code.  After [addPair(1, 2)] the table is allocated and
    [findPair] runs its lookup: it visits the record in cell 0, the lookup
    finds the pair there (or does not find the pair (5, 9)), and [findPair]
    ends without returning that result, in both argument orders. *)
Theorem findPair_returns_nothing :
  managerOnePair (H := widths64) = Returned onePair
  /\ lookForAPair (H := widths64) onePair 1 2 (bucketOf onePair 1 2)
     = mkWalk [0] (Returned (Slot 0))
  /\ findPair (H := widths64) onePair 1 2 = mkWalk [0] NoReturnValue
  /\ findPair (H := widths64) onePair 2 1 = mkWalk [0] NoReturnValue
  /\ lookForAPair (H := widths64) onePair 5 9 (bucketOf onePair 5 9)
     = mkWalk [0] (Returned NULL)
  /\ findPair (H := widths64) onePair 5 9 = mkWalk [0] NoReturnValue.
Proof. repeat split; vm_compute; reflexivity. Qed.

(** C4, on the code.  After [addPair(1, 2)] and [removePair(1, 2)] the
    count is 0 again and the lookup does not find the pair, but [findPair]
    ends without returning a value; the same holds after [shrinkMemory]. *)
Theorem add_remove_find :
  exists (m1 m2 m3 : PairManager) (p : BodyPairPtr),
    addPair (H := widths64) emptyManager (mkBody 1) (mkBody 2) = Returned (m1, p)
    /\ getNbOverlappingPairs m1 = 1
    /\ removePair (H := widths64) m1 1 2 = Returned (m2, true)
    /\ getNbOverlappingPairs m2 = 0
    /\ result (findPairWithHashValue (H := widths64) m2 1 2 (bucketOf m2 1 2))
       = Returned NULL
    /\ result (findPair (H := widths64) m2 1 2) = NoReturnValue
    /\ shrinkMemory (H := widths64) m2 = Returned m3
    /\ getNbOverlappingPairs m3 = 0
    /\ result (findPair (H := widths64) m3 1 2) = NoReturnValue.
Proof.
  exists onePair, emptied, emptied, (Slot 0).
  repeat split; vm_compute; reflexivity.
Qed.

(** ** The scenarios of the spec on the modelled operations *)

(** Scenarios A, B and D of the spec, with a [bodyindex] of 64 and of 16
    bits.  A: after three additions the count is 3 and the lookup of
    (1,2) finds the record in cell 0.  B: after an addition and its removal
    the count is 0 and the lookup finds nothing.  D: after (1,2) is removed
    the record (1,3), moved to cell 0, is still found. *)
Lemma spec_scenarios (W : IntegerWidths) :
  W = widths64 \/ W = widths16 ->
  (exists m : PairManager,
      managerScenarioA (H := W) = Returned m
      /\ mNbOverlappingPairs m = 3
      /\ result (findPairWithHashValue (H := W) m 1 2 (bucketOf m 1 2)) = Returned (Slot 0))
  /\ (exists m : PairManager,
        managerEmptied (H := W) = Returned m
        /\ mNbOverlappingPairs m = 0
        /\ result (findPairWithHashValue (H := W) m 1 2 (bucketOf m 1 2)) = Returned NULL)
  /\ (exists m : PairManager,
        managerScenarioD (H := W) = Returned m
        /\ mNbOverlappingPairs m = 1
        /\ result (findPairWithHashValue (H := W) m 1 3 (bucketOf m 1 3)) = Returned (Slot 0)
        /\ result (findPairWithHashValue (H := W) m 1 2 (bucketOf m 1 2)) = Returned NULL).
Proof.
  intros [-> | ->]; (split; [| split]);
    (eexists; split; [vm_compute; reflexivity |]);
    repeat split; vm_compute; reflexivity.
Qed.

(** ** Chains *)

Lemma isSeg_app (next : list (option Z)) (c1 c2 : list nat) (a b : Z) :
  isSeg next a (c1 ++ c2) b <->
  exists mid : Z, isSeg next a c1 mid /\ isSeg next mid c2 b.
Proof.
  revert a. induction c1 as [| i c1 IH]; intros a; cbn [app isSeg].
  - split.
    + intros Hseg. exists a. split; [reflexivity | exact Hseg].
    + intros (mid & -> & Hseg). exact Hseg.
  - split.
    + intros (-> & s & Hs & Hseg). apply IH in Hseg as (mid & H1 & H2).
      exists mid. split; [| exact H2]. split; [reflexivity |]. exists s. auto.
    + intros (mid & (-> & s & Hs & H1) & H2). split; [reflexivity |].
      exists s. split; [exact Hs |]. apply IH. exists mid. auto.
Qed.

(** A write outside a segment leaves it in place. *)
Lemma isSeg_frame (next : list (option Z)) (c : list nat) (a b : Z)
    (j : nat) (v : option Z) :
  j ∉ c -> isSeg next a c b -> isSeg (<[j := v]> next) a c b.
Proof.
  revert a. induction c as [| i c IH]; intros a Hj; cbn [isSeg]; [auto |].
  intros (-> & s & Hs & Hseg). split; [reflexivity |]. exists s.
  apply not_elem_of_cons in Hj as [Hne Hj].
  rewrite list_lookup_insert_ne by congruence. auto.
Qed.

(** Writing the link of the last record of a segment redirects it. *)
Lemma isSeg_redirect (next : list (option Z)) (c : list nat) (p : nat) (a b v : Z) :
  NoDup (c ++ [p]) ->
  isSeg next a (c ++ [p]) b ->
  isSeg (<[p := Some v]> next) a (c ++ [p]) v.
Proof.
  intros Hnd Hseg. apply isSeg_app in Hseg as (mid & H1 & H2).
  apply isSeg_app. exists mid. split.
  - apply isSeg_frame; [| exact H1].
    apply NoDup_app in Hnd as (_ & Hdisj & _). intros Hin.
    apply (Hdisj p Hin). left.
  - cbn [isSeg] in *. destruct H2 as (-> & s & Hs & _). split; [reflexivity |].
    exists v. split; [| reflexivity].
    apply list_lookup_insert_eq. apply lookup_lt_Some in Hs. exact Hs.
Qed.

Lemma isSeg_is_Some (next : list (option Z)) (c : list nat) (a b : Z) (j : nat) :
  isSeg next a c b -> j ∈ c -> exists s : Z, next !! j = Some (Some s).
Proof.
  revert a. induction c as [| i c IH]; intros a Hseg Hj.
  - apply elem_of_nil in Hj. contradiction.
  - cbn [isSeg] in Hseg. destruct Hseg as (-> & s & Hs & Hseg).
    apply elem_of_cons in Hj as [-> | Hj]; [exists s; exact Hs |].
    apply (IH s); assumption.
Qed.

Lemma NoDup_bounded_length (c : list nat) (n : nat) :
  NoDup c -> (forall j : nat, j ∈ c -> (j < n)%nat) -> (length c <= n)%nat.
Proof.
  intros Hnd Hlt.
  assert (Hsub : c ⊆+ seq 0 n).
  { apply NoDup_submseteq; [exact Hnd |].
    intros j Hj. apply elem_of_seq. specialize (Hlt j Hj). lia. }
  apply submseteq_length in Hsub. rewrite length_seq in Hsub. exact Hsub.
Qed.

Lemma isDifferentPair_false (p : BodyPair) (x y : Z) :
  isDifferentPair p x y = false <-> idsOf p = (x, y).
Proof.
  unfold isDifferentPair, idsOf.
  destruct (Z.eqb_spec x (getID (body1 p))), (Z.eqb_spec y (getID (body2 p)));
    cbn; split; intros Heq; try discriminate; try congruence.
Qed.

Section LookupSpec.

Context `{IntegerWidths}.

(** The walk along a chain ends at the first record with the identifiers
    looked for, or at the sentinel when the chain has none. *)
Lemma walkChain_spec (m : PairManager) (next : list (option Z))
    (cells : list (option BodyPair)) (x y : Z) (c : list nat) :
  mOffsetNextPair m = Some next ->
  mOverlappingPairs m = Some cells ->
  forall (head : Z) (fuel : nat),
    isSeg next head c INVALID_INDEX ->
    (forall j : nat, j ∈ c ->
       Z.of_nat j <> INVALID_INDEX /\ exists p : BodyPair, cells !! j = Some (Some p)) ->
    (length c <= fuel)%nat ->
    (exists (j : nat) (p : BodyPair),
        j ∈ c /\ cells !! j = Some (Some p) /\ idsOf p = (x, y)
        /\ result (walkChain fuel m x y head) = Returned (Z.of_nat j))
    \/ ((forall (j : nat) (p : BodyPair),
           j ∈ c -> cells !! j = Some (Some p) -> idsOf p <> (x, y))
        /\ result (walkChain fuel m x y head) = Returned INVALID_INDEX).
Proof.
  intros Hnext Hcells. induction c as [| i c IH]; intros head fuel Hseg Hc Hfuel.
  - right. cbn [isSeg] in Hseg. subst head. split.
    + intros j p Hj. apply elem_of_nil in Hj. contradiction.
    + destruct fuel; cbn [walkChain]; rewrite Z.eqb_refl; reflexivity.
  - cbn [isSeg] in Hseg. destruct Hseg as (-> & s & Hs & Hseg).
    destruct (Hc i) as [Hinv [p Hp]]; [left |].
    destruct fuel as [| fuel]; [cbn in Hfuel; lia |].
    cbn [walkChain]. destruct (Z.eqb_spec (Z.of_nat i) INVALID_INDEX) as [| _]; [contradiction |].
    rewrite Hcells, (readCell_Some _ _ _ Hp).
    destruct (isDifferentPair p x y) eqn:Hdiff.
    + rewrite Hnext, (readCell_Some _ _ _ Hs). cbn [result].
      destruct (IH s fuel Hseg) as [(j & q & Hj & Hq & Hids & Hres) | [Hnone Hres]].
      * intros j Hj. apply Hc. right. exact Hj.
      * cbn in Hfuel. lia.
      * left. exists j, q. split; [right; exact Hj |]. auto.
      * right. split; [| exact Hres]. intros j q Hj Hq.
        apply elem_of_cons in Hj as [-> | Hj]; [| apply (Hnone j q Hj Hq)].
        assert (q = p) as -> by congruence.
        intros Hids. apply isDifferentPair_false in Hids. congruence.
    + left. exists i, p. split; [left |]. split; [exact Hp |].
      split; [apply isDifferentPair_false; exact Hdiff | reflexivity].
Qed.

Lemma represents_bucket_range (m : PairManager) (ps : list BodyPair) (x y : Z) :
  represents m ps ->
  0 <= bucketOf m x y < mNbElementsHashTable m.
Proof.
  intros (capacity & table & next & cells & Hcap & _ & _ & _ & _ & _ & Hmask & _).
  pose proof (bucket_range x y (mHashMask m) ltac:(lia)) as Hb.
  unfold bucketOf. lia.
Qed.

(** On a manager that holds the records [ps], the lookup of [(x, y)] in
    its bucket returns the address of the record with these identifiers,
    or NULL when [ps] has none. *)
Lemma lookForAPair_spec (m : PairManager) (ps : list BodyPair) (x y : Z) :
  represents m ps ->
  (forall (j : nat) (p : BodyPair),
      ps !! j = Some p -> idsOf p = (x, y) ->
      result (lookForAPair m x y (bucketOf m x y)) = Returned (Slot (Z.of_nat j)))
  /\ ((forall p : BodyPair, p ∈ ps -> idsOf p <> (x, y)) ->
      result (lookForAPair m x y (bucketOf m x y)) = Returned NULL).
Proof.
  intros Hrep. pose proof (represents_bucket_range m ps x y Hrep) as Hb.
  destruct Hrep as (capacity & table & next & cells & Hcap & Hcount & Htable & Hnext
                    & Hcells & Hlen & Hmask & Hinv & Hstore & Hchained & Hord & Hnd).
  destruct Hchained as (Htl & Hnl & Hlive & Hchains).
  set (h := bucketOf m x y) in *.
  destruct (Hchains (Z.to_nat h)) as (head & c & Hhead & Hseg & Hcnd & Hmem); [lia |].
  assert (Hcells_c : forall j : nat, j ∈ c ->
            Z.of_nat j <> INVALID_INDEX /\ exists p, cells !! j = Some (Some p)).
  { intros j Hj. apply Hmem in Hj as [Hj _]. split; [apply Hlive; exact Hj |].
    destruct (lookup_lt_is_Some_2 ps j Hj) as [p Hp]. exists p. apply Hstore, Hp. }
  assert (Hfuel : (length c <= chainFuel m)%nat).
  { unfold chainFuel. rewrite Hnext. apply Nat.le_trans with capacity; [| lia].
    apply NoDup_bounded_length; [exact Hcnd |].
    intros j Hj. apply Hmem in Hj as [Hj _]. apply Hlive. exact Hj. }
  assert (Hlook : forall offset : Z,
            result (walkChain (chainFuel m) m x y head) = Returned offset ->
            result (lookForAPair m x y h)
            = Returned (if offset =? INVALID_INDEX then NULL
                        else addressOf (mOverlappingPairs m) offset)).
  { intros offset Hres. unfold lookForAPair. rewrite Htable.
    rewrite <- (Z2Nat.id h) by lia. rewrite (readCell_Some _ _ _ Hhead).
    cbn [result]. rewrite Hres. cbn [bind].
    destruct (offset =? INVALID_INDEX); reflexivity. }
  destruct (walkChain_spec m next cells x y c Hnext Hcells head (chainFuel m)
              Hseg Hcells_c Hfuel)
    as [(j & p & Hj & Hp & Hids & Hres) | [Hnone Hres]].
  - apply Hlook in Hres. rewrite Hres.
    destruct (Z.eqb_spec (Z.of_nat j) INVALID_INDEX) as [Heq | _];
      [apply Hcells_c in Hj as [Hj _]; contradiction |].
    rewrite Hcells. cbn [addressOf].
    assert (Hpsj : ps !! j = Some p).
    { apply Hmem in Hj as [Hj _].
      destruct (lookup_lt_is_Some_2 ps j Hj) as [q Hq].
      pose proof (Hstore j q Hq). congruence. }
    split.
    + intros j' p' Hp' Hids'. do 2 f_equal. f_equal.
      apply (NoDup_lookup (map idsOf ps) j j' (x, y) Hnd);
        rewrite list_lookup_fmap; [rewrite Hpsj | rewrite Hp']; cbn; congruence.
    + intros Hnone. exfalso. apply (Hnone p); [| exact Hids].
      apply list_elem_of_lookup. exists j. exact Hpsj.
  - apply Hlook in Hres. rewrite Hres, Z.eqb_refl. split; [| reflexivity].
    intros j p Hp Hids. exfalso. apply (Hnone j p); [| apply Hstore, Hp | exact Hids].
    apply Hmem. split; [apply lookup_lt_Some in Hp; exact Hp |].
    unfold bucketAt. rewrite Hp.
    assert (Hh : bucketOfPair (mHashMask m) p = h).
    { unfold idsOf in Hids. injection Hids as Hx Hy.
      unfold bucketOfPair, h, bucketOf. rewrite Hx, Hy. reflexivity. }
    rewrite Hh. lia.
Qed.

End LookupSpec.

(** ** Linking a record at the head of its bucket *)

Section Linking.

Context `{IntegerWidths}.

Lemma chained_ext (capacity : nat) (table next : list (option Z))
    (live live' : nat -> Prop) (bkt bkt' : nat -> Z) :
  (forall j : nat, live j <-> live' j) ->
  (forall j : nat, live j -> bkt j = bkt' j) ->
  chained capacity table next live bkt ->
  chained capacity table next live' bkt'.
Proof.
  intros Hlive Hbkt (Htl & Hnl & Hbound & Hchains).
  split; [exact Htl |]. split; [exact Hnl |]. split.
  - intros j Hj. apply Hbound, Hlive, Hj.
  - intros h Hh. destruct (Hchains h Hh) as (head & c & Hhead & Hseg & Hnd & Hmem).
    exists head, c. split; [exact Hhead |]. split; [exact Hseg |].
    split; [exact Hnd |]. intros j. rewrite Hmem. split.
    + intros [Hj Hb]. split; [apply Hlive, Hj |]. rewrite <- Hbkt; assumption.
    + intros [Hj Hb]. apply Hlive in Hj. split; [exact Hj |]. rewrite Hbkt; assumption.
Qed.

(** The three writes that make record [k] the head of bucket [h], with
    the former head as its successor, extend the chains by record [k]. *)
Lemma chained_link (capacity : nat) (table next : list (option Z))
    (bkt : nat -> Z) (k h : nat) (head : Z) :
  chained capacity table next (fun j => (j < k)%nat) bkt ->
  (k < capacity)%nat ->
  Z.of_nat k <> INVALID_INDEX ->
  bkt k = Z.of_nat h ->
  (h < capacity)%nat ->
  table !! h = Some (Some head) ->
  chained capacity (<[h := Some (Z.of_nat k)]> table) (<[k := Some head]> next)
    (fun j => (j < S k)%nat) bkt.
Proof.
  intros (Htl & Hnl & Hbound & Hchains) Hk Hinv Hbk Hh Hhead.
  split; [rewrite length_insert; exact Htl |].
  split; [rewrite length_insert; exact Hnl |]. split.
  - intros j Hj. destruct (Nat.eq_dec j k) as [-> | Hne]; [auto |].
    apply Hbound. lia.
  - intros h' Hh'.
    destruct (Hchains h' Hh') as (head' & c & Hhead' & Hseg & Hnd & Hmem).
    assert (Hkc : k ∉ c) by (intros Hin; apply Hmem in Hin as [Hlt _]; lia).
    destruct (Nat.eq_dec h h') as [<- | Hne].
    + exists (Z.of_nat k), (k :: c).
      split; [apply list_lookup_insert_eq; lia |].
      assert (head' = head) as -> by congruence.
      split; [| split].
      * cbn [isSeg]. split; [reflexivity |]. exists head.
        split; [apply list_lookup_insert_eq; lia |].
        apply isSeg_frame; assumption.
      * apply NoDup_cons. split; assumption.
      * intros j. rewrite elem_of_cons, Hmem. split.
        -- intros [-> | [Hj Hb]]; [split; [lia | exact Hbk] | split; [lia | exact Hb]].
        -- intros [Hj Hb]. destruct (Nat.eq_dec j k) as [-> | Hjk]; [left; reflexivity |].
           right. split; [lia | exact Hb].
    + exists head', c.
      split; [rewrite list_lookup_insert_ne by exact Hne; exact Hhead' |].
      split; [apply isSeg_frame; assumption |].
      split; [exact Hnd |].
      intros j. rewrite Hmem. split.
      * intros [Hj Hb]. split; [lia | exact Hb].
      * intros [Hj Hb]. split; [| exact Hb].
        destruct (Nat.eq_dec j k) as [-> | Hjk]; [| lia].
        rewrite Hbk in Hb. lia.
Qed.

(** One round of the rehash loop links the record of cell [k]. *)
Lemma rehashPair_chained (capacity : nat) (mask : Z) (ps : list BodyPair)
    (cells : list (option BodyPair)) (table next : list (option Z)) (k : nat) (p : BodyPair) :
  chained capacity table next (fun j => (j < k)%nat) (bucketAt mask ps) ->
  0 <= mask < Z.of_nat capacity ->
  (k < capacity)%nat ->
  Z.of_nat k <> INVALID_INDEX ->
  ps !! k = Some p ->
  cells !! k = Some (Some p) ->
  exists table' next' : list (option Z),
    rehashPair mask (Some cells) (Returned (Some table, Some next)) k
    = Returned (Some table', Some next')
    /\ chained capacity table' next' (fun j => (j < S k)%nat) (bucketAt mask ps).
Proof.
  intros Hch Hmask Hk Hinv Hps Hcell.
  pose proof Hch as (Htl & Hnl & _ & Hchains).
  unfold rehashPair. cbn [bind]. rewrite (readCell_Some _ _ _ Hcell). cbn [bind].
  set (h := bucketOfPair mask p).
  assert (Hh : 0 <= h <= mask) by (apply bucket_range; lia).
  assert (Hbk : bucketAt mask ps k = h) by (unfold bucketAt; rewrite Hps; reflexivity).
  clearbody h.
  destruct (Hchains (Z.to_nat h)) as (head & c & Hhead & _); [lia |].
  rewrite (readCell_at _ _ _ (proj1 Hh) Hhead). cbn [bind].
  rewrite writeCell_Some by lia. cbn [bind].
  rewrite writeCell_at by lia. cbn [bind].
  eexists _, _. split; [reflexivity |].
  apply chained_link; try assumption; lia.
Qed.

Lemma foldl_rehashPair_chained (capacity : nat) (mask : Z) (ps : list BodyPair)
    (cells : list (option BodyPair)) (n : nat) :
  0 <= mask < Z.of_nat capacity ->
  Z.of_nat (length ps) <= INVALID_INDEX ->
  (length ps <= capacity)%nat ->
  (forall (j : nat) (p : BodyPair), ps !! j = Some p -> cells !! j = Some (Some p)) ->
  forall (k : nat) (table next : list (option Z)),
    (k + n <= length ps)%nat ->
    chained capacity table next (fun j => (j < k)%nat) (bucketAt mask ps) ->
    exists table' next' : list (option Z),
      foldl (rehashPair mask (Some cells)) (Returned (Some table, Some next)) (seq k n)
      = Returned (Some table', Some next')
      /\ chained capacity table' next' (fun j => (j < k + n)%nat) (bucketAt mask ps).
Proof.
  intros Hmask Hinv Hfit Hstore. induction n as [| n IH]; intros k table next Hkn Hch.
  - exists table, next. split; [reflexivity |].
    eapply chained_ext; [| | exact Hch]; [intros j; cbn beta; lia | reflexivity].
  - cbn [seq foldl].
    destruct (lookup_lt_is_Some_2 ps k) as [p Hp]; [lia |].
    destruct (rehashPair_chained capacity mask ps cells table next k p)
      as (table1 & next1 & -> & Hch1); try assumption; try lia.
    { apply Hstore, Hp. }
    destruct (IH (S k) table1 next1) as (table' & next' & -> & Hch'); [lia | exact Hch1 |].
    exists table', next'. split; [reflexivity |].
    eapply chained_ext; [| | exact Hch']; [intros j; cbn beta; lia | reflexivity].
Qed.

(** [reallocatePairs] on a dense store that holds the records [ps] and
    fits the capacity builds a manager that holds [ps]. *)
Lemma reallocatePairs_represents (m : PairManager) (ps : list BodyPair) (capacity : nat) :
  mNbElementsHashTable m = Z.of_nat capacity ->
  mNbOverlappingPairs m = Z.of_nat (length ps) ->
  (length ps <= capacity)%nat ->
  0 <= mHashMask m < Z.of_nat capacity ->
  Z.of_nat (length ps) <= INVALID_INDEX ->
  (forall (j : nat) (p : BodyPair),
      ps !! j = Some p -> readCell (mOverlappingPairs m) (Z.of_nat j) = Returned p) ->
  (forall p : BodyPair, p ∈ ps -> getID (body1 p) < getID (body2 p)) ->
  NoDup (map idsOf ps) ->
  exists m' : PairManager,
    reallocatePairs m = Returned m'
    /\ represents m' ps
    /\ mNbElementsHashTable m' = mNbElementsHashTable m
    /\ mHashMask m' = mHashMask m.
Proof.
  intros Hcap Hcount Hfit Hmask Hinv Hstore Hord Hnd. unfold reallocatePairs.
  rewrite Hcap, Hcount, !Nat2Z.id.
  destruct (movePairs_returns capacity (length ps) (mOverlappingPairs m))
    as (cells & -> & Hlen & Hsame); [exact Hfit | |].
  { intros i Hi. destruct (lookup_lt_is_Some_2 ps i Hi) as [p Hp].
    exists p. apply Hstore, Hp. }
  cbn [bind].
  assert (Hstore' : forall (j : nat) (p : BodyPair),
            ps !! j = Some p -> cells !! j = Some (Some p)).
  { intros j p Hp. pose proof (lookup_lt_Some _ _ _ Hp) as Hj.
    pose proof (Hstore j p Hp) as Hread. rewrite <- Hsame in Hread by exact Hj.
    apply readCell_Returned in Hread as (cells' & [= <-] & _ & Hcell).
    rewrite Nat2Z.id in Hcell. exact Hcell. }
  destruct (foldl_rehashPair_chained capacity (mHashMask m) ps cells (length ps)
              Hmask Hinv Hfit Hstore' 0%nat
              (replicate capacity (Some INVALID_INDEX)) (replicate capacity None))
    as (table & next & -> & Hch).
  - lia.
  - split; [apply length_replicate |]. split; [apply length_replicate |].
    split; [intros j Hj; lia |].
    intros h Hh. exists INVALID_INDEX, [].
    split; [apply lookup_replicate_2; exact Hh |].
    split; [reflexivity |]. split; [apply NoDup_nil_2 |].
    intros j. rewrite elem_of_nil. split; [contradiction | intros [Hj _]; lia].
  - cbn [bind]. eexists. split; [reflexivity |]. split; [| split; reflexivity].
    exists capacity, table, next, cells.
    cbn [mNbElementsHashTable mHashMask mNbOverlappingPairs mHashTable
         mOffsetNextPair mOverlappingPairs].
    repeat split; try assumption; try lia; try apply Hch.
Qed.

End Linking.

(** ** Insertion *)

Lemma sortedPair_spec (a b : CollisionBody) :
  getID a <> getID b ->
  sortBodiesUsingID a b = (body1 (sortedPair (a, b)), body2 (sortedPair (a, b)))
  /\ getID (body1 (sortedPair (a, b))) < getID (body2 (sortedPair (a, b)))
  /\ idsOf (sortedPair (a, b)) = sortIDs (getID a) (getID b).
Proof.
  intros Hne. unfold sortedPair, sortBodiesUsingID, sortIDs, idsOf. cbn [fst snd].
  destruct (Z.gtb_spec (getID a) (getID b)); cbn [body1 body2];
    (split; [reflexivity |]); (split; [lia | reflexivity]).
Qed.

Section Insertion.

Context `{IntegerWidths}.

Lemma represents_findPairWithHashValue (m : PairManager) (ps : list BodyPair)
    (x y hashValue : Z) :
  represents m ps ->
  findPairWithHashValue m x y hashValue = lookForAPair m x y hashValue.
Proof.
  intros (capacity & table & next & cells & _ & _ & Htable & _).
  unfold findPairWithHashValue. rewrite Htable. reflexivity.
Qed.

(** On a well-formed manager the lookup of identifiers that no record has
    returns NULL. *)
Lemma wellFormed_lookup_absent (m : PairManager) (ps : list BodyPair) (x y : Z) :
  wellFormed m ps ->
  (forall p : BodyPair, p ∈ ps -> idsOf p <> (x, y)) ->
  result (findPairWithHashValue m x y (bucketOf m x y)) = Returned NULL.
Proof.
  intros [[-> ->] | Hrep] Habsent; [reflexivity |].
  rewrite (represents_findPairWithHashValue m ps) by exact Hrep.
  apply (lookForAPair_spec m ps x y Hrep). exact Habsent.
Qed.

(** The growth step leaves a manager that holds the same records and has
    a free cell; when it resizes, the capacity is the smallest power of
    two that is at least [count + 1]. *)
Lemma ensureCapacity_spec (m : PairManager) (ps : list BodyPair) :
  wellFormed m ps ->
  Z.of_nat (length ps) <= INVALID_INDEX ->
  exists m1 : PairManager,
    ensureCapacity m = Returned m1
    /\ represents m1 ps
    /\ mNbOverlappingPairs m1 + 1 <= mNbElementsHashTable m1
    /\ (m1 = m
        \/ mNbElementsHashTable m1 = smallestPowerOfTwoGeq (mNbOverlappingPairs m + 1)).
Proof.
  intros Hwf Hinv.
  assert (Hgrow : forall (count : Z) (a1 a2 : array Z) (a3 : array BodyPair),
            count = Z.of_nat (length ps) ->
            (forall (j : nat) (p : BodyPair),
                ps !! j = Some p -> readCell a3 (Z.of_nat j) = Returned p) ->
            (forall p : BodyPair, p ∈ ps -> getID (body1 p) < getID (body2 p)) ->
            NoDup (map idsOf ps) ->
            exists m1 : PairManager,
              reallocatePairs
                (mkPairManager (smallestPowerOfTwoGeq (count + 1))
                   (smallestPowerOfTwoGeq (count + 1) - 1) count a1 a2 a3)
              = Returned m1
              /\ represents m1 ps
              /\ mNbOverlappingPairs m1 + 1 <= mNbElementsHashTable m1
              /\ mNbElementsHashTable m1 = smallestPowerOfTwoGeq (count + 1)).
  { intros count a1 a2 a3 -> Hstore Hord Hnd.
    set (n := Z.of_nat (length ps)) in *.
    pose proof (smallestPowerOfTwoGeq_succ_bound n ltac:(lia)) as [Hlow _].
    set (c := smallestPowerOfTwoGeq (n + 1)) in *.
    destruct (reallocatePairs_represents (mkPairManager c (c - 1) n a1 a2 a3) ps (Z.to_nat c))
      as (m1 & Hrun & Hrep & Hcap & _); cbn [mNbElementsHashTable mHashMask
        mNbOverlappingPairs mOverlappingPairs]; try assumption; try lia.
    exists m1. split; [exact Hrun |]. split; [exact Hrep |].
    destruct Hrep as (capacity & _ & _ & _ & _ & Hcount & _).
    cbn in Hcap. split; [lia | exact Hcap]. }
  unfold ensureCapacity. destruct Hwf as [[-> ->] | Hrep].
  - cbn [emptyManager mNbElementsHashTable mNbOverlappingPairs mHashTable
         mOffsetNextPair mOverlappingPairs].
    destruct (Z.ltb_spec 0 (0 + 1)); [| lia].
    destruct (Hgrow 0 None None None) as (m1 & Hrun & Hrep & Hfree & Hcap);
      [reflexivity | | | apply NoDup_nil_2 |].
    + intros j p Hp. rewrite lookup_nil in Hp. discriminate.
    + intros p Hp. apply elem_of_nil in Hp. contradiction.
    + exists m1. auto.
  - pose proof Hrep as (capacity & table & next & cells & Hcap & Hcount & Htable & Hnext
                        & Hcells & Hlen & Hmask & _ & Hstore & _ & Hord & Hnd).
    destruct (Z.ltb_spec (mNbElementsHashTable m) (mNbOverlappingPairs m + 1)).
    + destruct (Hgrow (mNbOverlappingPairs m) (mHashTable m) (mOffsetNextPair m)
                  (mOverlappingPairs m)) as (m1 & Hrun & Hrep1 & Hfree & Hcap1);
        try assumption.
      * intros j p Hp. rewrite Hcells. apply readCell_Some, Hstore, Hp.
      * exists m1. auto.
    + exists m. split; [reflexivity |]. split; [exact Hrep |]. split; [lia | left; reflexivity].
Qed.

(** [addPair] of two bodies with distinct identifiers that no record has
    yet appends their ordered pair to the dense store. *)
Lemma addPair_spec (m : PairManager) (ps : list BodyPair) (a b : CollisionBody) :
  wellFormed m ps ->
  getID a <> getID b ->
  (forall p : BodyPair, p ∈ ps -> idsOf p <> sortIDs (getID a) (getID b)) ->
  Z.of_nat (length ps) < INVALID_INDEX ->
  exists (m' : PairManager) (ptr : BodyPairPtr),
    addPair m a b = Returned (m', ptr)
    /\ represents m' (ps ++ [sortedPair (a, b)]).
Proof.
  intros Hwf Hne Hfresh Hinv.
  destruct (sortedPair_spec a b Hne) as (Hsort & Hlt & Hids).
  set (rec := sortedPair (a, b)) in *.
  unfold addPair. destruct (Z.eqb_spec (getID a) (getID b)); [contradiction |].
  cbn [negb assert bind]. rewrite Hsort.
  assert (Hkey : (getID (body1 rec), getID (body2 rec)) = sortIDs (getID a) (getID b))
    by exact Hids.
  rewrite (wellFormed_lookup_absent m ps) by (rewrite ?Hkey; assumption).
  cbn [bind isNull NULL].
  destruct (ensureCapacity_spec m ps Hwf ltac:(lia)) as (m1 & -> & Hrep & Hfree & _).
  cbn [bind].
  pose proof (represents_bucket_range m1 ps (getID (body1 rec)) (getID (body2 rec)) Hrep)
    as Hb.
  destruct Hrep as (capacity & table & next & cells & Hcap & Hcount & Htable & Hnext
                    & Hcells & Hlen & Hmask & _ & Hstore & Hch & Hord & Hnd).
  assert (Hbk : bucketOfPair (mHashMask m1) rec
                = bucketOf m1 (getID (body1 rec)) (getID (body2 rec)))
    by (unfold bucketOfPair, bucketOf; reflexivity).
  set (h := bucketOf m1 (getID (body1 rec)) (getID (body2 rec))) in *.
  clearbody h.
  pose proof Hch as (Htl & Hnl & _ & Hchains).
  destruct (Hchains (Z.to_nat h)) as (head & c & Hhead & _); [lia |].
  rewrite Hcells, Htable, Hnext, Hcount.
  rewrite writeCell_Some by lia. cbn [bind].
  rewrite (readCell_at _ _ _ (proj1 Hb) Hhead). cbn [bind].
  rewrite writeCell_Some by lia. cbn [bind].
  rewrite writeCell_at by lia. cbn [bind].
  replace rec with (mkBodyPair (body1 rec) (body2 rec)) at 1 by (destruct rec; reflexivity).
  eexists _, _. split; [reflexivity |].
  exists capacity, (<[Z.to_nat h := Some (Z.of_nat (length ps))]> table),
         (<[length ps := Some head]> next),
         (<[length ps := Some rec]> cells).
  cbn [mNbElementsHashTable mHashMask mNbOverlappingPairs mHashTable
       mOffsetNextPair mOverlappingPairs].
  rewrite length_app, length_insert. cbn [length].
  split; [exact Hcap |]. split; [lia |].
  split; [destruct rec; reflexivity |]. split; [reflexivity |].
  split; [destruct rec; reflexivity |].
  split; [exact Hlen |]. split; [exact Hmask |]. split; [lia |]. split; [| split; [| split]].
  - intros j p Hp. destruct (Nat.lt_ge_cases j (length ps)) as [Hj | Hj].
    + rewrite lookup_app_l in Hp by exact Hj.
      rewrite list_lookup_insert_ne by lia. apply Hstore, Hp.
    + rewrite lookup_app_r in Hp by exact Hj.
      destruct (j - length ps)%nat as [| d] eqn:Hd; [| destruct d; discriminate].
      injection Hp as <-. replace j with (length ps) by lia.
      apply list_lookup_insert_eq. lia.
  - eapply chained_ext;
      [| | apply (chained_link capacity table next
                    (bucketAt (mHashMask m1) (ps ++ [rec])) (length ps) (Z.to_nat h) head)].
    + intros j. cbn beta. lia.
    + reflexivity.
    + eapply chained_ext; [| | exact Hch]; [reflexivity |].
      intros j Hj. unfold bucketAt. rewrite lookup_app_l by exact Hj. reflexivity.
    + lia.
    + lia.
    + unfold bucketAt. rewrite lookup_app_r by lia. rewrite Nat.sub_diag. cbn. lia.
    + lia.
    + exact Hhead.
  - intros p Hp. apply elem_of_app in Hp as [Hp | Hp]; [apply Hord, Hp |].
    apply list_elem_of_singleton in Hp as ->. exact Hlt.
  - rewrite map_app. cbn [map]. apply NoDup_app. split; [exact Hnd |]. split.
    + intros q Hq Hq'. apply list_elem_of_singleton in Hq' as ->.
      apply list_elem_of_fmap in Hq as (p & Hp & Hin).
      apply (Hfresh p Hin). congruence.
    + apply NoDup_singleton.
Qed.

End Insertion.

(** ** Patching a link *)

Lemma isSeg_bounded (next : list (option Z)) (c : list nat) (a b : Z) :
  isSeg next a c b -> NoDup c -> (length c <= length next)%nat.
Proof.
  intros Hseg Hnd. apply NoDup_bounded_length; [exact Hnd |].
  intros j Hj. destruct (isSeg_is_Some next c a b j Hseg Hj) as [s Hs].
  apply lookup_lt_Some in Hs. exact Hs.
Qed.

(** The loop of [patchChain] walks a segment that leads to [target] and
    writes the link of its last record. *)
Lemma patchChain_spec (next : list (option Z)) (target v : Z) (p : nat) (pre : list nat) :
  forall (a : Z) (fuel : nat),
    isSeg next a (pre ++ [p]) target ->
    (forall j : nat, j ∈ pre ++ [p] -> Z.of_nat j <> target) ->
    (length (pre ++ [p]) <= fuel)%nat ->
    patchChain fuel (Some next) a target v = Returned (Some (<[p := Some v]> next)).
Proof.
  induction pre as [| q pre IH]; intros a fuel Hseg Hne Hfuel.
  - cbn [app isSeg] in Hseg. destruct Hseg as (-> & s & Hs & ->).
    destruct fuel as [| fuel]; [cbn in Hfuel; lia |].
    cbn [patchChain]. rewrite (readCell_Some _ _ _ Hs). cbn [bind].
    rewrite Z.eqb_refl. apply writeCell_Some. apply lookup_lt_Some in Hs. exact Hs.
  - cbn [app isSeg] in Hseg. destruct Hseg as (-> & s & Hs & Hseg).
    destruct fuel as [| fuel]; [cbn in Hfuel; lia |].
    cbn [patchChain]. rewrite (readCell_Some _ _ _ Hs). cbn [bind].
    assert (Hst : s <> target).
    { destruct (pre ++ [p]) as [| j rest] eqn:Hrest.
      - destruct pre; discriminate.
      - cbn [isSeg] in Hseg. destruct Hseg as [-> _].
        apply Hne. cbn [app]. rewrite Hrest. right. left. }
    destruct (Z.eqb_spec s target) as [| _]; [contradiction |].
    apply IH; [exact Hseg | | cbn in Hfuel; lia].
    intros j Hj. apply Hne. right. exact Hj.
Qed.

(** [patchLink] on the bucket [h], whose chain leads through [pre] to the
    record [tgt]: the link that held [tgt] now holds [v].  The bucket head
    and the links of the records outside [pre] are as before. *)
Lemma patchLink_spec (table next : list (option Z)) (h tgt : nat) (v head : Z)
    (pre post : list nat) (b : Z) :
  table !! h = Some (Some head) ->
  isSeg next head (pre ++ tgt :: post) b ->
  NoDup (pre ++ tgt :: post) ->
  exists (table' next' : list (option Z)) (head' : Z),
    patchLink (Some table) (Some next) (Z.of_nat h) (Z.of_nat tgt) v
    = Returned (Some table', Some next')
    /\ length table' = length table
    /\ length next' = length next
    /\ table' !! h = Some (Some head')
    /\ (forall h2 : nat, h2 <> h -> table' !! h2 = table !! h2)
    /\ isSeg next' head' pre v
    /\ (forall j : nat, j ∉ pre -> next' !! j = next !! j)
    /\ (forall (c : list nat) (x y : Z),
          (forall j : nat, j ∈ c -> j ∉ pre) -> isSeg next x c y -> isSeg next' x c y).
Proof.
  intros Hhead Hseg Hnd. unfold patchLink.
  rewrite (readCell_Some _ _ _ Hhead). cbn [bind].
  apply isSeg_app in Hseg as (mid & Hpre & Htgt).
  assert (mid = Z.of_nat tgt) as -> by (cbn [isSeg] in Htgt; tauto).
  apply NoDup_app in Hnd as (Hndpre & Hdisj & _).
  destruct (nil_or_length_pos pre) as [-> | Hlen].
  - cbn [isSeg] in Hpre. subst head. rewrite Z.eqb_refl.
    rewrite writeCell_Some by (apply lookup_lt_Some in Hhead; exact Hhead).
    cbn [bind]. eexists _, _, v. split; [reflexivity |].
    split; [apply length_insert |]. split; [reflexivity |].
    split; [apply list_lookup_insert_eq; apply lookup_lt_Some in Hhead; exact Hhead |].
    split; [intros h2 Hh2; apply list_lookup_insert_ne; congruence |].
    split; [reflexivity |]. split; [reflexivity |]. auto.
  - destruct (exists_last (l := pre)) as (pre0 & p & ->);
      [intros ->; cbn in Hlen; lia |].
    assert (Hhead_ne : head <> Z.of_nat tgt).
    { destruct pre0 as [| q pre0]; cbn [app isSeg] in Hpre;
        destruct Hpre as [-> _]; intros Heq; apply Nat2Z.inj in Heq; subst;
        apply (Hdisj tgt); try left; rewrite ?elem_of_cons; auto. }
    destruct (Z.eqb_spec head (Z.of_nat tgt)) as [| _]; [contradiction |].
    rewrite (patchChain_spec next (Z.of_nat tgt) v p pre0 head (S (length next))).
    + cbn [bind]. eexists _, _, head. split; [reflexivity |].
      split; [reflexivity |]. split; [apply length_insert |].
      split; [exact Hhead |]. split; [reflexivity |].
      split; [apply isSeg_redirect with (b := Z.of_nat tgt); assumption |].
      split.
      * intros j Hj. apply list_lookup_insert_ne. intros ->. apply Hj.
        apply elem_of_app. right. left.
      * intros c x y Hc Hcseg. apply isSeg_frame; [| exact Hcseg].
        intros Hin. apply (Hc p Hin). apply elem_of_app. right. left.
    + exact Hpre.
    + intros j Hj Heq. apply Nat2Z.inj in Heq. subst j. apply (Hdisj tgt Hj). left.
    + pose proof (isSeg_bounded next _ _ _ Hpre Hndpre). lia.
Qed.

(** ** Unlinking and moving a record *)

Section Surgery.

Context `{IntegerWidths}.

(** Splicing the live record [i] out of its bucket leaves the chains of
    the other live records. *)
Lemma chained_unlink (capacity : nat) (table next : list (option Z))
    (live : nat -> Prop) (bkt : nat -> Z) (i h : nat) :
  chained capacity table next live bkt ->
  live i ->
  bkt i = Z.of_nat h ->
  (h < capacity)%nat ->
  exists (s : Z) (table' next' : list (option Z)),
    next !! i = Some (Some s)
    /\ patchLink (Some table) (Some next) (Z.of_nat h) (Z.of_nat i) s
       = Returned (Some table', Some next')
    /\ chained capacity table' next' (fun j => live j /\ j <> i) bkt.
Proof.
  intros (Htl & Hnl & Hbound & Hchains) Hi Hbi Hh.
  destruct (Hchains h Hh) as (head & c & Hhead & Hseg & Hnd & Hmem).
  assert (Hic : i ∈ c) by (apply Hmem; auto).
  apply list_elem_of_split in Hic as (pre & post & ->).
  pose proof Hseg as Hseg'. apply isSeg_app in Hseg' as (mid & Hpre & Hrest).
  cbn [isSeg] in Hrest. destruct Hrest as (-> & s & Hs & Hpost).
  destruct (patchLink_spec table next h i s head pre post INVALID_INDEX Hhead Hseg Hnd)
    as (table' & next' & head' & Hrun & Htl' & Hnl' & Hhead' & Htable' & Hpre' & _ & Hframe).
  exists s, table', next'. split; [exact Hs |]. split; [exact Hrun |].
  pose proof Hnd as Hnd'. apply NoDup_app in Hnd' as (Hndpre & Hdisj & Hndrest).
  apply NoDup_cons in Hndrest as [Hipost Hndpost].
  split; [lia |]. split; [lia |]. split; [intros j [Hj _]; apply Hbound, Hj |].
  intros h2 Hh2. destruct (Nat.eq_dec h2 h) as [-> | Hne].
  - exists head', (pre ++ post). split; [exact Hhead' |]. split; [| split].
    + apply isSeg_app. exists s. split; [exact Hpre' |].
      apply Hframe; [| exact Hpost].
      intros j Hj Hj'. apply (Hdisj j Hj'). right. exact Hj.
    + apply NoDup_app. split; [exact Hndpre |]. split; [| exact Hndpost].
      intros j Hj Hj'. apply (Hdisj j Hj). right. exact Hj'.
    + intros j. specialize (Hmem j). rewrite elem_of_app, elem_of_cons in Hmem.
      rewrite elem_of_app. split.
      * intros [Hj | Hj]; (split; [split; [tauto |] | tauto]); intros ->;
          [apply (Hdisj i Hj); left | contradiction].
      * intros [[Hlive Hji] Hb]. destruct Hmem as [_ Hm].
        destruct Hm as [Hin | [-> | Hin]]; tauto.
  - destruct (Hchains h2 Hh2) as (head2 & c2 & Hhead2 & Hseg2 & Hnd2 & Hmem2).
    exists head2, c2. split; [rewrite Htable' by exact Hne; exact Hhead2 |].
    split; [| split; [exact Hnd2 |]].
    + apply Hframe; [| exact Hseg2]. intros j Hj Hj'.
      apply Hmem2 in Hj as [_ Hb2].
      assert (Hjc : j ∈ pre ++ i :: post) by (apply elem_of_app; left; exact Hj').
      apply Hmem in Hjc as [_ Hb]. rewrite Hb in Hb2. lia.
    + intros j. rewrite Hmem2. split; [| tauto].
      intros [Hj Hb]. split; [| exact Hb]. split; [exact Hj |].
      intros ->. rewrite Hbi in Hb. lia.
Qed.

(** Retargeting the link that holds the live record [l] to the free cell
    [i], and giving cell [i] the link of [l], moves the record to cell
    [i] in the chains. *)
Lemma chained_move (capacity : nat) (table next : list (option Z))
    (live : nat -> Prop) (bkt : nat -> Z) (i l h : nat) :
  chained capacity table next live bkt ->
  live l ->
  ~ live i ->
  (i < capacity)%nat ->
  Z.of_nat i <> INVALID_INDEX ->
  bkt l = Z.of_nat h ->
  (h < capacity)%nat ->
  exists (s : Z) (table' next' : list (option Z)),
    patchLink (Some table) (Some next) (Z.of_nat h) (Z.of_nat l) (Z.of_nat i)
    = Returned (Some table', Some next')
    /\ next' !! l = Some (Some s)
    /\ length next' = capacity
    /\ chained capacity table' (<[i := Some s]> next')
         (fun j => (live j /\ j <> l) \/ j = i)
         (fun j => if decide (j = i) then bkt l else bkt j).
Proof.
  intros (Htl & Hnl & Hbound & Hchains) Hl Hi Hicap Hinv Hbl Hh.
  destruct (Hchains h Hh) as (head & c & Hhead & Hseg & Hnd & Hmem).
  assert (Hlc : l ∈ c) by (apply Hmem; auto).
  assert (Hic : i ∉ c) by (intros Hin; apply Hmem in Hin as [Hin _]; contradiction).
  apply list_elem_of_split in Hlc as (pre & post & ->).
  pose proof Hseg as Hseg'. apply isSeg_app in Hseg' as (mid & Hpre & Hrest).
  cbn [isSeg] in Hrest. destruct Hrest as (-> & s & Hs & Hpost).
  destruct (patchLink_spec table next h l (Z.of_nat i) head pre post INVALID_INDEX
              Hhead Hseg Hnd)
    as (table' & next' & head' & Hrun & Htl' & Hnl' & Hhead' & Htable' & Hpre' & Hsame & Hframe).
  pose proof Hnd as Hnd'. apply NoDup_app in Hnd' as (Hndpre & Hdisj & Hndrest).
  apply NoDup_cons in Hndrest as [Hlpost Hndpost].
  assert (Hlpre : l ∉ pre) by (intros Hin; apply (Hdisj l Hin); left).
  assert (Hipre : i ∉ pre) by (intros Hin; apply Hic, elem_of_app; left; exact Hin).
  assert (Hipost : i ∉ post)
    by (intros Hin; apply Hic, elem_of_app; right; right; exact Hin).
  exists s, table', next'. split; [exact Hrun |].
  split; [rewrite Hsame by exact Hlpre; exact Hs |]. split; [lia |].
  split; [lia |]. split; [rewrite length_insert; lia |]. split.
  { intros j [[Hj _] | ->]; [apply Hbound, Hj | auto]. }
  intros h2 Hh2. destruct (Nat.eq_dec h2 h) as [-> | Hne].
  - exists head', (pre ++ i :: post). split; [exact Hhead' |]. split; [| split].
    + apply isSeg_app. exists (Z.of_nat i).
      split; [apply isSeg_frame; assumption |].
      cbn [isSeg]. split; [reflexivity |]. exists s.
      split; [apply list_lookup_insert_eq; lia |].
      apply isSeg_frame; [exact Hipost |]. apply Hframe; [| exact Hpost].
      intros j Hj Hj'. apply (Hdisj j Hj'). right. exact Hj.
    + apply NoDup_app. split; [exact Hndpre |]. split.
      * intros j Hj Hj'. apply elem_of_cons in Hj' as [-> | Hj']; [contradiction |].
        apply (Hdisj j Hj). right. exact Hj'.
      * apply NoDup_cons. split; assumption.
    + intros j. destruct (decide (j = i)) as [-> | Hji].
      * split; [intros _; split; [right; reflexivity | exact Hbl] |].
        intros _. apply elem_of_app. right. left.
      * rewrite !elem_of_app, !elem_of_cons.
        assert (Hj : j ∈ pre ++ l :: post <-> live j /\ bkt j = Z.of_nat h) by apply Hmem.
        rewrite elem_of_app, elem_of_cons in Hj. split.
        -- intros [Hin | [-> | Hin]]; [| contradiction |].
           ++ split; [left; split; [tauto | intros ->; contradiction] | tauto].
           ++ split; [left; split; [tauto | intros ->; contradiction] | tauto].
        -- intros [[[Hlive Hjl] | ->] Hb]; [| contradiction].
           destruct Hj as [_ Hj]. destruct Hj as [Hin | [-> | Hin]]; tauto.
  - destruct (Hchains h2 Hh2) as (head2 & c2 & Hhead2 & Hseg2 & Hnd2 & Hmem2).
    exists head2, c2. split; [rewrite Htable' by exact Hne; exact Hhead2 |].
    split; [| split; [exact Hnd2 |]].
    + apply isSeg_frame.
      * intros Hin. apply Hmem2 in Hin as [Hin _]. contradiction.
      * apply Hframe; [| exact Hseg2]. intros j Hj Hj'.
        apply Hmem2 in Hj as [_ Hb2].
        assert (Hjc : j ∈ pre ++ l :: post) by (apply elem_of_app; left; exact Hj').
        apply Hmem in Hjc as [_ Hb]. rewrite Hb in Hb2. lia.
    + intros j. rewrite Hmem2. destruct (decide (j = i)) as [-> | Hji].
      * split; [intros [Hlive _]; contradiction |].
        intros [_ Hb]. rewrite Hbl in Hb. lia.
      * split.
        -- intros [Hlive Hb]. split; [| exact Hb]. left. split; [exact Hlive |].
           intros ->. rewrite Hbl in Hb. lia.
        -- intros [[[Hlive _] | ->] Hb]; [tauto | contradiction].
Qed.

End Surgery.

(** ** Removal *)

Lemma swapRemove_snoc (i : nat) (init : list BodyPair) (l : BodyPair) :
  swapRemove i (init ++ [l]) = <[i := l]> init.
Proof.
  unfold swapRemove. rewrite last_snoc, length_app. cbn [length].
  replace (length init + 1 - 1)%nat with (length init) by lia.
  rewrite take_app_length. reflexivity.
Qed.

Lemma swapRemove_Permutation (i : nat) (ps : list BodyPair) (rec : BodyPair) :
  ps !! i = Some rec -> ps ≡ₚ rec :: swapRemove i ps.
Proof.
  intros Hi. destruct (exists_last (l := ps)) as (init & l & ->).
  { intros ->. rewrite lookup_nil in Hi. discriminate. }
  rewrite swapRemove_snoc.
  destruct (Nat.lt_ge_cases i (length init)) as [Hlt | Hge].
  - rewrite lookup_app_l in Hi by exact Hlt.
    rewrite insert_take_drop by exact Hlt.
    rewrite <- (take_drop_middle init i rec Hi) at 1.
    rewrite <- (Permutation_middle (take i init) (drop (S i) init) l).
    rewrite (Permutation_app_comm (take i init ++ rec :: drop (S i) init) [l]).
    cbn [app].
    rewrite <- (Permutation_middle (take i init) (drop (S i) init) rec).
    apply perm_swap.
  - rewrite list_insert_ge by exact Hge.
    pose proof (lookup_lt_Some _ _ _ Hi) as Hbound.
    rewrite length_app in Hbound. cbn [length] in Hbound.
    assert (i = length init) as -> by lia.
    rewrite lookup_app_r, Nat.sub_diag in Hi by lia. injection Hi as <-.
    rewrite Permutation_app_comm. reflexivity.
Qed.

Lemma swapRemove_length (i : nat) (ps : list BodyPair) :
  ps <> [] -> length (swapRemove i ps) = (length ps - 1)%nat.
Proof.
  intros Hne. destruct (exists_last Hne) as (init & l & ->).
  rewrite swapRemove_snoc, length_insert, length_app. cbn [length]. lia.
Qed.

Lemma swapRemove_lookup (i j : nat) (ps : list BodyPair) (l : BodyPair) :
  last ps = Some l ->
  (j < length ps - 1)%nat ->
  swapRemove i ps !! j = if decide (j = i) then Some l else ps !! j.
Proof.
  intros Hlast Hj. unfold swapRemove. rewrite Hlast.
  destruct (decide (j = i)) as [-> | Hne].
  - apply list_lookup_insert_eq. rewrite length_take. lia.
  - rewrite list_lookup_insert_ne by congruence.
    apply lookup_take_lt. exact Hj.
Qed.

Section Removal.

Context `{IntegerWidths}.

(** [removePairWithHashValue] on the record of cell [i], with the bucket
    of that record, leaves a manager that holds the other records, the
    last one moved to cell [i]. *)
Lemma removePairWithHashValue_spec (m : PairManager) (ps : list BodyPair)
    (i : nat) (rec : BodyPair) (x y : Z) :
  represents m ps ->
  ps !! i = Some rec ->
  exists m' : PairManager,
    removePairWithHashValue m x y (bucketOfPair (mHashMask m) rec) (Z.of_nat i)
    = Returned m'
    /\ represents m' (swapRemove i ps).
Proof.
  intros Hrep Hi.
  destruct Hrep as (capacity & table & next & cells & Hcap & Hcount & Htable & Hnext
                    & Hcells & Hlen & Hmask & Hinv & Hstore & Hch & Hord & Hnd).
  pose proof (lookup_lt_Some _ _ _ Hi) as Hilt.
  assert (Hne : ps <> []) by (intros ->; cbn in Hilt; lia).
  destruct (last ps) as [lastRec |] eqn:Hlast;
    [| apply last_None in Hlast; contradiction].
  pose proof Hlast as Hl. rewrite last_lookup in Hl.
  set (n := length ps) in *.
  replace (Init.Nat.pred n) with (n - 1)%nat in Hl by lia.
  pose proof (swapRemove_Permutation i ps rec Hi) as Hperm.
  pose proof (swapRemove_length i ps Hne) as Hlen'. fold n in Hlen'.
  pose proof Hch as (Htl & Hnl & Hbound & _).
  destruct (Hbound i Hilt) as [Hicap Hiinv].
  (* the bucket of the record *)
  set (h := bucketOfPair (mHashMask m) rec).
  assert (Hh : 0 <= h <= mHashMask m) by (apply bucket_range; lia).
  assert (Hbi : bucketAt (mHashMask m) ps i = Z.of_nat (Z.to_nat h))
    by (unfold bucketAt; rewrite Hi; fold h; lia).
  clearbody h.
  destruct (chained_unlink capacity table next _ _ i (Z.to_nat h) Hch Hilt Hbi)
    as (s & table1 & next1 & Hs & Hrun1 & Hch1); [lia |].
  rewrite Z2Nat.id in Hrun1 by lia.
  (* what holds of the result in both cases *)
  assert (Hord' : forall p : BodyPair,
            p ∈ swapRemove i ps -> getID (body1 p) < getID (body2 p)).
  { intros p Hp. apply Hord. rewrite Hperm. right. exact Hp. }
  assert (Hnd' : NoDup (map idsOf (swapRemove i ps))).
  { assert (Hp : map idsOf ps ≡ₚ idsOf rec :: map idsOf (swapRemove i ps))
      by (rewrite Hperm at 1; reflexivity).
    rewrite Hp in Hnd. apply NoDup_cons in Hnd as [_ Hnd]. exact Hnd. }
  unfold removePairWithHashValue.
  rewrite Hnext, Htable, Hcells, Hcount. fold n.
  rewrite (readCell_Some _ _ _ Hs). cbn [bind].
  rewrite Hrun1. cbn [bind].
  destruct (Z.eqb_spec (Z.of_nat n - 1) (Z.of_nat i)) as [Heq | Hneq].
  - (* the removed record is the last one *)
    assert (Hin : i = (n - 1)%nat) by lia.
    eexists. split; [reflexivity |].
    exists capacity, table1, next1, cells.
    cbn [mNbElementsHashTable mHashMask mNbOverlappingPairs mHashTable
         mOffsetNextPair mOverlappingPairs].
    rewrite Hlen'.
    split; [exact Hcap |]. split; [lia |]. split; [reflexivity |].
    split; [reflexivity |]. split; [reflexivity |]. split; [exact Hlen |].
    split; [exact Hmask |]. split; [lia |]. split; [| split; [| split; assumption]].
    + intros j p Hp. pose proof (lookup_lt_Some _ _ _ Hp) as Hj.
      rewrite Hlen' in Hj.
      rewrite (swapRemove_lookup i j ps lastRec Hlast) in Hp by (fold n; lia).
      destruct (decide (j = i)); [lia |]. apply Hstore, Hp.
    + eapply chained_ext; [| | exact Hch1].
      * intros j. cbn beta. lia.
      * intros j [Hj Hji]. unfold bucketAt.
        rewrite (swapRemove_lookup i j ps lastRec Hlast) by (fold n; lia).
        destruct (decide (j = i)); [contradiction | reflexivity].
  - (* the last record moves to cell [i] *)
    assert (Hlt : (i < n - 1)%nat) by lia.
    replace (Z.of_nat n - 1) with (Z.of_nat (n - 1)) by lia.
    rewrite (readCell_Some _ _ _ (Hstore _ _ Hl)). cbn [bind].
    set (h2 := bucketOfPair (mHashMask m) lastRec).
    assert (Hh2 : 0 <= h2 <= mHashMask m) by (apply bucket_range; lia).
    assert (Hbl : bucketAt (mHashMask m) ps (n - 1) = Z.of_nat (Z.to_nat h2))
      by (unfold bucketAt; rewrite Hl; fold h2; lia).
    clearbody h2.
    destruct (chained_move capacity table1 next1 _ _ i (n - 1)%nat (Z.to_nat h2) Hch1)
      as (s2 & table2 & next2 & Hrun2 & Hs2 & Hnl2 & Hch2);
      [cbn beta; lia | cbn beta; lia | lia | exact Hiinv | exact Hbl | lia |].
    rewrite Z2Nat.id in Hrun2 by lia.
    rewrite Hrun2. cbn [bind].
    rewrite (readCell_Some _ _ _ Hs2). cbn [bind].
    rewrite writeCell_Some by lia. cbn [bind].
    rewrite writeCell_Some by lia. cbn [bind].
    eexists. split; [reflexivity |].
    exists capacity, table2, (<[i := Some s2]> next2), (<[i := Some lastRec]> cells).
    cbn [mNbElementsHashTable mHashMask mNbOverlappingPairs mHashTable
         mOffsetNextPair mOverlappingPairs].
    rewrite Hlen', length_insert.
    split; [exact Hcap |]. split; [lia |]. split; [reflexivity |].
    split; [reflexivity |]. split; [reflexivity |]. split; [exact Hlen |].
    split; [exact Hmask |]. split; [lia |]. split; [| split; [| split; assumption]].
    + intros j p Hp. pose proof (lookup_lt_Some _ _ _ Hp) as Hj.
      rewrite Hlen' in Hj.
      rewrite (swapRemove_lookup i j ps lastRec Hlast) in Hp by (fold n; lia).
      destruct (decide (j = i)) as [-> | Hji].
      * injection Hp as <-. apply list_lookup_insert_eq. lia.
      * rewrite list_lookup_insert_ne by congruence. apply Hstore, Hp.
    + eapply chained_ext; [| | exact Hch2].
      * intros j. cbn beta. lia.
      * intros j Hj. cbn beta in Hj |- *. unfold bucketAt.
        rewrite (swapRemove_lookup i j ps lastRec Hlast) by (fold n; lia).
        destruct (decide (j = i)); [rewrite Hl |]; reflexivity.
Qed.

End Removal.

(** ** Adding and removing a sequence of pairs *)

Section RoundTrip.

Context `{IntegerWidths}.

(** [removePair] of the identifiers of a stored record, in either order,
    returns true and leaves the other records. *)
Lemma removePair_spec (m : PairManager) (ps : list BodyPair)
    (i : nat) (rec : BodyPair) (x y : Z) :
  represents m ps ->
  ps !! i = Some rec ->
  idsOf rec = sortIDs x y ->
  exists m' : PairManager,
    removePair m x y = Returned (m', true)
    /\ represents m' (swapRemove i ps).
Proof.
  intros Hrep Hi Hids. unfold removePair.
  destruct (sortIDs x y) as [x' y'].
  rewrite (represents_findPairWithHashValue m ps) by exact Hrep.
  destruct (lookForAPair_spec m ps x' y' Hrep) as [Hfound _].
  rewrite (Hfound i rec Hi Hids). cbn [bind].
  assert (Hb : bucketOf m x' y' = bucketOfPair (mHashMask m) rec).
  { unfold idsOf in Hids. injection Hids as Hx Hy.
    unfold bucketOf, bucketOfPair. rewrite Hx, Hy. reflexivity. }
  rewrite Hb.
  destruct (removePairWithHashValue_spec m ps i rec x' y' Hrep Hi) as (m' & -> & Hrep').
  cbn [bind]. exists m'. split; [reflexivity | exact Hrep'].
Qed.

Lemma addAll_spec (l : list (CollisionBody * CollisionBody)) :
  forall (m : PairManager) (ps : list BodyPair),
    wellFormed m ps ->
    (forall ab : CollisionBody * CollisionBody,
        ab ∈ l -> getID (fst ab) <> getID (snd ab)) ->
    NoDup (map normalisedIDs l) ->
    (forall p : BodyPair, p ∈ ps -> idsOf p ∉ map normalisedIDs l) ->
    Z.of_nat (length ps + length l) <= INVALID_INDEX ->
    exists m' : PairManager,
      addAll m l = Returned m'
      /\ wellFormed m' (ps ++ map sortedPair l).
Proof.
  induction l as [| [a b] l IH]; intros m ps Hwf Hdist Hnd Hfresh Hinv.
  - exists m. split; [reflexivity |]. cbn [map]. rewrite app_nil_r. exact Hwf.
  - cbn [map] in Hnd. apply NoDup_cons in Hnd as [Hab Hnd].
    cbn [length] in Hinv.
    destruct (addPair_spec m ps a b Hwf) as (m1 & ptr & Hrun & Hrep).
    + apply (Hdist (a, b)). left.
    + intros p Hp Hids. apply (Hfresh p Hp). rewrite Hids. left.
    + lia.
    + cbn [addAll]. rewrite Hrun. cbn [bind].
      destruct (IH m1 (ps ++ [sortedPair (a, b)])) as (m' & Hrun' & Hwf').
      * right. exact Hrep.
      * intros ab Hin. apply Hdist. right. exact Hin.
      * exact Hnd.
      * intros p Hp Hin. apply elem_of_app in Hp as [Hp | Hp].
        -- apply (Hfresh p Hp). right. exact Hin.
        -- apply list_elem_of_singleton in Hp as ->. apply Hab.
           destruct (sortedPair_spec a b) as (_ & _ & Hids);
             [apply (Hdist (a, b)); left |].
           rewrite Hids in Hin. exact Hin.
      * rewrite length_app. cbn [length]. lia.
      * exists m'. split; [exact Hrun' |].
        cbn [map]. rewrite <- app_assoc in Hwf'. exact Hwf'.
Qed.

Lemma removeAll_spec (l : list (CollisionBody * CollisionBody)) :
  forall (m : PairManager) (ps : list BodyPair),
    represents m ps ->
    map idsOf ps ≡ₚ map normalisedIDs l ->
    exists m' : PairManager,
      removeAll m l = Returned (m', true)
      /\ represents m' [].
Proof.
  induction l as [| [a b] l IH]; intros m ps Hrep Hperm.
  - cbn [map] in Hperm. apply Permutation_nil_r in Hperm.
    apply fmap_nil_inv in Hperm. subst ps.
    exists m. split; [reflexivity | exact Hrep].
  - cbn [map] in Hperm.
    assert (Hin : normalisedIDs (a, b) ∈ map idsOf ps) by (rewrite Hperm; left).
    apply list_elem_of_fmap in Hin as (rec & Hids & Hrec).
    apply list_elem_of_lookup in Hrec as [i Hi].
    destruct (removePair_spec m ps i rec (getID a) (getID b) Hrep Hi)
      as (m1 & Hrun & Hrep1); [symmetry; exact Hids |].
    destruct (IH m1 (swapRemove i ps) Hrep1) as (m' & Hrun' & Hrep').
    + apply (Permutation_cons_inv (a := normalisedIDs (a, b))).
      transitivity (map idsOf ps); [| exact Hperm].
      rewrite Hids. symmetry.
      exact (Permutation_map idsOf (swapRemove_Permutation i ps rec Hi)).
    + exists m'. cbn [removeAll]. rewrite Hrun. cbn [bind]. rewrite Hrun'.
      split; [reflexivity | exact Hrep'].
Qed.

Lemma represents_count (m : PairManager) (ps : list BodyPair) :
  represents m ps -> mNbOverlappingPairs m = Z.of_nat (length ps).
Proof. intros (capacity & table & next & cells & _ & Hcount & _). exact Hcount. Qed.

(** The round trip on the modelled [addPair] and [removePair], for every
    sequence of pairs of bodies with distinct identifiers, no pair twice in
    either order, short enough for the offsets to stay below the sentinel:
    every call returns, the count is the length of the sequence after the
    additions and 0 after the removals, and every removal returns true.
    The lookup then finds none of the pairs; [findPair], on the table that
    stays allocated, ends without returning that. *)
Lemma add_remove_roundtrip (l : list (CollisionBody * CollisionBody)) :
  (forall ab : CollisionBody * CollisionBody,
      ab ∈ l -> getID (fst ab) <> getID (snd ab)) ->
  NoDup (map normalisedIDs l) ->
  Z.of_nat (length l) <= INVALID_INDEX ->
  exists m1 m2 : PairManager,
    addAll emptyManager l = Returned m1
    /\ getNbOverlappingPairs m1 = Z.of_nat (length l)
    /\ removeAll m1 l = Returned (m2, true)
    /\ getNbOverlappingPairs m2 = 0
    /\ forall ab : CollisionBody * CollisionBody,
         ab ∈ l ->
         result (findPairWithHashValue m2 (fst (normalisedIDs ab)) (snd (normalisedIDs ab))
                   (bucketOf m2 (fst (normalisedIDs ab)) (snd (normalisedIDs ab))))
         = Returned NULL
         /\ result (findPair m2 (getID (fst ab)) (getID (snd ab))) = NoReturnValue.
Proof.
  intros Hdist Hnd Hinv.
  destruct (addAll_spec l emptyManager [] (or_introl (conj eq_refl eq_refl)) Hdist Hnd)
    as (m1 & Hadd & Hwf).
  { intros p Hp. apply elem_of_nil in Hp. contradiction. }
  { cbn [length Nat.add]. exact Hinv. }
  cbn [app] in Hwf.
  destruct l as [| ab0 l'].
  - exists emptyManager, emptyManager.
    split; [reflexivity |]. split; [reflexivity |]. split; [reflexivity |].
    split; [reflexivity |].
    intros ab Hab. apply elem_of_nil in Hab. contradiction.
  - set (l := ab0 :: l') in *.
    destruct Hwf as [[_ Hnil] | Hrep]; [discriminate |].
    destruct (removeAll_spec l m1 (map sortedPair l) Hrep) as (m2 & Hrem & Hrep2).
    { assert (Heq : map idsOf (map sortedPair l) = map normalisedIDs l);
        [| rewrite Heq; reflexivity].
      rewrite List.map_map. apply List.map_ext_in.
      intros [a b] Hab. apply sortedPair_spec.
      apply list_elem_of_In in Hab. apply (Hdist (a, b) Hab). }
    exists m1, m2. split; [exact Hadd |].
    split; [unfold getNbOverlappingPairs;
            rewrite (represents_count m1 _ Hrep), length_map; reflexivity |].
    split; [exact Hrem |].
    split; [exact (represents_count m2 [] Hrep2) |].
    intros ab1 Hab1.
    assert (Hlook : forall x y : Z,
              result (lookForAPair m2 x y (bucketOf m2 x y)) = Returned NULL).
    { intros x y. apply (lookForAPair_spec m2 [] x y Hrep2).
      intros p Hp. apply elem_of_nil in Hp. contradiction. }
    split.
    + rewrite (represents_findPairWithHashValue m2 []) by exact Hrep2. apply Hlook.
    + destruct Hrep2 as (capacity & table & next & cells & _ & _ & Htable & _).
      unfold findPair. rewrite Htable.
      destruct (sortIDs (getID (fst ab1)) (getID (snd ab1))) as [x y].
      cbn [result]. rewrite Hlook. reflexivity.
Qed.

End RoundTrip.

(** ** Both argument orders of [findPair] *)

Section BothOrders.

Context `{IntegerWidths}.

(** A walk that ends on a record has compared that record. *)
Lemma walkChain_visits_found (m : PairManager) (x y offset : Z) (fuel : nat) :
  forall head : Z,
    result (walkChain fuel m x y head) = Returned offset ->
    offset <> INVALID_INDEX ->
    offset ∈ visited (walkChain fuel m x y head).
Proof.
  induction fuel as [| fuel IH]; intros head Hres Hvalid; cbn [walkChain] in *.
  - destruct (Z.eqb_spec head INVALID_INDEX) as [_ | _]; cbn [result] in Hres;
      [injection Hres as Hoff; congruence | discriminate].
  - destruct (Z.eqb_spec head INVALID_INDEX) as [_ | _];
      [cbn [result] in Hres; injection Hres as Hoff; congruence |].
    destruct (readCell (mOverlappingPairs m) head) as [candidate | |];
      [| discriminate | discriminate].
    destruct (isDifferentPair candidate x y).
    + destruct (readCell (mOffsetNextPair m) head) as [successor | |];
        [| discriminate | discriminate].
      cbn [result visited] in *. right. apply IH; assumption.
    + cbn [result visited] in *. injection Hres as <-. left.
Qed.

(** A lookup that returns the address of a cell has compared the record
    of that cell. *)
Lemma lookForAPair_visits_found (m : PairManager) (x y hashValue i : Z) :
  result (lookForAPair m x y hashValue) = Returned (Slot i) ->
  i ∈ visited (lookForAPair m x y hashValue).
Proof.
  unfold lookForAPair.
  destruct (readCell (mHashTable m) hashValue) as [head | |];
    [| discriminate | discriminate].
  cbn [result visited].
  destruct (result (walkChain (chainFuel m) m x y head)) as [offset | |] eqn:Hwalk;
    [| discriminate | discriminate].
  cbn [bind]. destruct (Z.eqb_spec offset INVALID_INDEX) as [_ | Hvalid];
    [discriminate |].
  destruct (mOverlappingPairs m) as [cells |]; cbn [addressOf]; [| discriminate].
  intros Heq. injection Heq as <-.
  apply walkChain_visits_found; assumption.
Qed.

(** C3, on the code.  On a manager that holds a record [p] of the distinct
    identifiers [a] and [b] in cell [j], [sortIDs] turns both argument
    orders into the same ordered pair, and both calls of [findPair] run the
    lookup of that pair in its bucket: they compare the same records, the
    record of cell [j] among them, and the lookup locates that record.
    Neither call returns it: both end without a return value. *)
Theorem findPair_symmetric (m : PairManager) (ps : list BodyPair) (a b : Z)
    (j : nat) (p : BodyPair) :
  represents m ps ->
  a <> b ->
  ps !! j = Some p ->
  idsOf p = (Z.min a b, Z.max a b) ->
  let look :=
    lookForAPair m (Z.min a b) (Z.max a b) (bucketOf m (Z.min a b) (Z.max a b)) in
  sortIDs a b = (Z.min a b, Z.max a b)
  /\ sortIDs b a = (Z.min a b, Z.max a b)
  /\ Z.min a b < Z.max a b
  /\ result look = Returned (Slot (Z.of_nat j))
  /\ deref m (Slot (Z.of_nat j)) = Returned p
  /\ Z.of_nat j ∈ visited look
  /\ visited (findPair m a b) = visited look
  /\ visited (findPair m b a) = visited look
  /\ result (findPair m a b) = NoReturnValue
  /\ result (findPair m b a) = NoReturnValue.
Proof.
  intros Hrep Hne Hp Hids. cbv zeta.
  assert (Hab : sortIDs a b = (Z.min a b, Z.max a b)) by apply sortIDs_min_max.
  assert (Hba : sortIDs b a = (Z.min a b, Z.max a b))
    by (rewrite sortIDs_comm; exact Hab).
  destruct (lookForAPair_spec m ps (Z.min a b) (Z.max a b) Hrep) as [Hfound _].
  specialize (Hfound j p Hp Hids).
  pose proof (lookForAPair_visits_found m _ _ _ _ Hfound) as Hvisited.
  destruct Hrep as (capacity & table & next & cells & _ & _ & Htable & _
                    & Hcells & _ & _ & _ & Hstore & _).
  assert (Hfind : forall x y : Z,
            sortIDs x y = (Z.min a b, Z.max a b) ->
            visited (findPair m x y)
            = visited (lookForAPair m (Z.min a b) (Z.max a b)
                         (bucketOf m (Z.min a b) (Z.max a b)))
            /\ result (findPair m x y) = NoReturnValue).
  { intros x y Hxy. unfold findPair. rewrite Htable, Hxy. cbn [visited result].
    split; [reflexivity |]. rewrite Hfound. reflexivity. }
  destruct (Hfind a b Hab) as [Hvab Hrab]. destruct (Hfind b a Hba) as [Hvba Hrba].
  split; [exact Hab |]. split; [exact Hba |]. split; [lia |].
  split; [exact Hfound |].
  split; [cbn [deref]; rewrite Hcells; apply readCell_Some, Hstore, Hp |].
  split; [exact Hvisited |].
  split; [exact Hvab |]. split; [exact Hvba |]. split; [exact Hrab | exact Hrba].
Qed.

End BothOrders.

Lemma findPair_symmetric_witness :
  exists m : PairManager,
    managerScenarioA (H := widths64) = Returned m
    /\ result (lookForAPair (H := widths64) m 2 3 (bucketOf m 2 3)) = Returned (Slot 1)
    /\ 1 ∈ visited (findPair (H := widths64) m 3 2)
    /\ visited (findPair (H := widths64) m 3 2) = visited (findPair (H := widths64) m 2 3)
    /\ result (findPair (H := widths64) m 3 2) = NoReturnValue
    /\ result (findPair (H := widths64) m 2 3) = NoReturnValue.
Proof.
  destruct (addAll_spec (H := widths64)
              [(mkBody 1, mkBody 2); (mkBody 2, mkBody 3); (mkBody 1, mkBody 3)]
              emptyManager [])
    as (m & Hadd & Hwf).
  - left. split; reflexivity.
  - intros ab Hab. repeat (apply elem_of_cons in Hab as [-> | Hab]; [cbn; lia |]).
    apply elem_of_nil in Hab. contradiction.
  - apply (bool_decide_unpack _). vm_compute. exact I.
  - intros q Hq. apply elem_of_nil in Hq. contradiction.
  - vm_compute. discriminate.
  - destruct Hwf as [[_ Hnil] | Hrep]; [discriminate |].
    exists m. split; [rewrite <- Hadd; vm_compute; reflexivity |].
    destruct (findPair_symmetric (H := widths64) m _ 3 2 1%nat
                (mkBodyPair (mkBody 2) (mkBody 3)) Hrep)
      as (_ & _ & _ & Hlook & _ & Hin & H32 & H23 & Hr32 & Hr23).
    + lia.
    + reflexivity.
    + reflexivity.
    + split; [exact Hlook |]. split; [rewrite H32; exact Hin |].
      split; [rewrite H32, H23; reflexivity |]. split; [exact Hr32 | exact Hr23].
Defined.

(** ** The range of the hash *)

Lemma to_int_range (z : Z) : - 2 ^ 31 <= to_int z < 2 ^ 31.
Proof.
  unfold to_int. pose proof (Z.mod_pos_bound (z + 2 ^ 31) (2 ^ 32) ltac:(lia)). lia.
Qed.

(** [to_int z] differs from [z] by a multiple of [2^32]. *)
Lemma to_int_eq (z : Z) :
  exists q : Z, to_int z = z + 4294967296 * q /\ - 2147483648 <= to_int z < 2147483648.
Proof.
  exists (- ((z + 2 ^ 31) / 2 ^ 32)). split.
  - unfold to_int. rewrite Z.mod_eq by lia. lia.
  - apply to_int_range.
Qed.

Lemma to_int_small (x : Z) : - 2 ^ 31 <= x < 2 ^ 31 -> to_int x = x.
Proof. intros Hx. destruct (to_int_eq x) as (q & Hq & Hr). lia. Qed.

Lemma to_int_to_uint (z : Z) : to_int (to_uint z) = to_int z.
Proof.
  unfold to_uint, to_unsigned. rewrite Z.mod_eq by lia.
  change (2 ^ 32) with 4294967296.
  generalize (z / 4294967296). intros d.
  destruct (to_int_eq (z - 4294967296 * d)) as (q1 & H1 & R1).
  destruct (to_int_eq z) as (q2 & H2 & R2).
  lia.
Qed.

Lemma lxor_range31 (a b : Z) :
  0 <= a < 2 ^ 31 -> 0 <= b < 2 ^ 31 -> 0 <= Z.lxor a b < 2 ^ 31.
Proof.
  intros Ha Hb.
  assert (Hnn : 0 <= Z.lxor a b) by (apply Z.lxor_nonneg; lia).
  split; [exact Hnn |].
  destruct (Z.eq_dec (Z.lxor a b) 0) as [-> | Hnz]; [lia |].
  apply Z.log2_lt_pow2; [lia |].
  assert (Hlog : forall x : Z, 0 <= x < 2 ^ 31 -> Z.log2 x < 31).
  { intros x Hx. destruct (Z.eq_dec x 0) as [-> | Hx0]; [reflexivity |].
    apply Z.log2_lt_pow2; lia. }
  pose proof (Z.log2_lxor a b ltac:(lia) ltac:(lia)).
  pose proof (Hlog a Ha). pose proof (Hlog b Hb). lia.
Qed.

Lemma shiftr_range31 (x s : Z) : 0 <= x < 2 ^ 31 -> 0 <= s -> 0 <= Z.shiftr x s < 2 ^ 31.
Proof.
  intros Hx Hs. split; [apply Z.shiftr_nonneg; lia |].
  rewrite Z.shiftr_div_pow2 by exact Hs.
  assert (0 < 2 ^ s) by (apply Z.pow_pos_nonneg; lia).
  apply Z.le_lt_trans with x; [| lia].
  apply Z.div_le_upper_bound; [lia | nia].
Qed.

(** A round [key ^= key >> s] on an [int]: the shift copies the sign bit,
    so the result has its sign bit clear. *)
Lemma mix_range (x s : Z) :
  - 2 ^ 31 <= x < 2 ^ 31 -> 0 <= s -> 0 <= Z.lxor x (Z.shiftr x s) < 2 ^ 31.
Proof.
  intros Hx Hs. destruct (Z.le_gt_cases 0 x) as [Hnn | Hneg].
  - apply lxor_range31; [lia | apply shiftr_range31; lia].
  - rewrite <- Z.lxor_lnot_lnot, Z.lnot_shiftr by exact Hs.
    assert (0 <= Z.lnot x < 2 ^ 31) by (rewrite Z.lnot_eq_pred_opp; lia).
    apply lxor_range31; [assumption | apply shiftr_range31; assumption].
Qed.

(** X1.  The hash never has its top bit set: [computeHash32Bits] returns
    a number in [[0, 2^31)] for every key, and so does
    [computeHashBodies], whose conversion back to [uint] changes
    nothing. *)
Theorem computeHash32Bits_range (key id1 id2 : Z) :
  0 <= computeHash32Bits key < 2 ^ 31
  /\ 0 <= computeHashBodies id1 id2 < 2 ^ 31
  /\ computeHashBodies id1 id2 = computeHash32Bits (to_int (hashKey id1 id2)).
Proof.
  assert (Hrange : forall k : Z, 0 <= computeHash32Bits k < 2 ^ 31).
  { intros k. unfold computeHash32Bits. cbv zeta.
    apply mix_range; [apply to_int_range | lia]. }
  assert (Heq : computeHashBodies id1 id2 = computeHash32Bits (to_int (hashKey id1 id2))).
  { unfold computeHashBodies, to_uint. apply to_unsigned_small.
    pose proof (Hrange (to_int (hashKey id1 id2))). lia. }
  split; [apply Hrange |]. split; [rewrite Heq; apply Hrange | exact Heq].
Qed.

(** ** Keys with the same hash *)

Lemma mix_lnot (y s : Z) :
  0 <= s -> Z.lxor (Z.lnot y) (Z.shiftr (Z.lnot y) s) = Z.lxor y (Z.shiftr y s).
Proof. intros Hs. rewrite <- Z.lnot_shiftr by exact Hs. apply Z.lxor_lnot_lnot. Qed.

(** The first round, [key += ~(key << 15)], sends the colliding key to the
    complement of what it sends the key to. *)
Lemma first_round_collidingKey (k : Z) :
  to_int (collidingKey k + Z.lnot (to_int (Z.shiftl (collidingKey k) 15)))
  = Z.lnot (to_int (k + Z.lnot (to_int (Z.shiftl k 15)))).
Proof.
  unfold collidingKey. rewrite !Z.shiftl_mul_pow2 by lia.
  change (2 ^ 15) with 32768.
  destruct (to_int_eq (1073774593 - k)) as (q1 & E1 & R1).
  remember (to_int (1073774593 - k)) as k' eqn:Hk'. clear Hk'.
  destruct (to_int_eq (k' * 32768)) as (q2 & E2 & R2).
  remember (to_int (k' * 32768)) as t' eqn:Ht'. clear Ht'.
  destruct (to_int_eq (k * 32768)) as (q3 & E3 & R3).
  remember (to_int (k * 32768)) as t eqn:Ht. clear Ht.
  rewrite !Z.lnot_eq_pred_opp.
  destruct (to_int_eq (k' + (- t' - 1))) as (q4 & E4 & R4).
  remember (to_int (k' + (- t' - 1))) as g' eqn:Hg'. clear Hg'.
  destruct (to_int_eq (k + (- t - 1))) as (q5 & E5 & R5).
  remember (to_int (k + (- t - 1))) as g eqn:Hg. clear Hg.
  lia.
Qed.

Lemma computeHash32Bits_collidingKey (key : Z) :
  collidingKey key <> key
  /\ computeHash32Bits (collidingKey key) = computeHash32Bits key.
Proof.
  split.
  - unfold collidingKey. destruct (to_int_eq (1073774593 - key)) as (q & E & _).
    rewrite E. lia.
  - unfold computeHash32Bits. cbv zeta.
    rewrite first_round_collidingKey, mix_lnot by lia. reflexivity.
Qed.

Lemma unpackKey_hashKey (u : Z) :
  0 <= u < 2 ^ 32 ->
  0 <= fst (unpackKey u) < 2 ^ 16
  /\ 0 <= snd (unpackKey u) < 2 ^ 16
  /\ hashKey (fst (unpackKey u)) (snd (unpackKey u)) = u.
Proof.
  intros Hu. unfold unpackKey. cbn [fst snd].
  assert (H1 : 0 <= u mod 2 ^ 16 < 2 ^ 16) by (apply Z.mod_pos_bound; lia).
  assert (H2 : 0 <= u / 2 ^ 16 < 2 ^ 16).
  { split; [apply Z.div_pos; lia |]. apply Z.div_lt_upper_bound; lia. }
  split; [exact H1 |]. split; [exact H2 |].
  rewrite hashKey_sum by assumption.
  pose proof (Z.div_mod u (2 ^ 16) ltac:(lia)). lia.
Qed.

(** X2.  The hash is not injective on the keys of 16-bit identifiers: for
    every pair of identifiers below [2^16] there is another pair of
    identifiers below [2^16] with the same value of [computeHashBodies],
    hence in the same bucket under every mask. *)
Theorem computeHashBodies_collision (id1 id2 : Z) :
  0 <= id1 < 2 ^ 16 ->
  0 <= id2 < 2 ^ 16 ->
  0 <= fst (collidingIDs id1 id2) < 2 ^ 16
  /\ 0 <= snd (collidingIDs id1 id2) < 2 ^ 16
  /\ collidingIDs id1 id2 <> (id1, id2)
  /\ computeHashBodies (fst (collidingIDs id1 id2)) (snd (collidingIDs id1 id2))
     = computeHashBodies id1 id2
  /\ forall mask : Z,
       Z.land (computeHashBodies (fst (collidingIDs id1 id2)) (snd (collidingIDs id1 id2)))
         mask
       = Z.land (computeHashBodies id1 id2) mask.
Proof.
  intros H1 H2. unfold collidingIDs.
  set (key := hashKey id1 id2).
  set (u := to_uint (collidingKey (to_int key))).
  assert (Hu : 0 <= u < 2 ^ 32) by (unfold u, to_uint; apply to_unsigned_range; lia).
  destruct (unpackKey_hashKey u Hu) as (Hr1 & Hr2 & Hpack).
  destruct (computeHash32Bits_collidingKey (to_int key)) as [Hne Hsame].
  assert (Hint : to_int u = collidingKey (to_int key)).
  { unfold u. rewrite to_int_to_uint. apply to_int_small.
    unfold collidingKey. apply to_int_range. }
  assert (Hhash : computeHashBodies (fst (unpackKey u)) (snd (unpackKey u))
                  = computeHashBodies id1 id2).
  { unfold computeHashBodies. rewrite Hpack, Hint, Hsame. reflexivity. }
  split; [exact Hr1 |]. split; [exact Hr2 |]. split; [| split].
  - intros Heq. apply Hne. rewrite <- Hint, <- Hpack, Heq. reflexivity.
  - exact Hhash.
  - intros mask. rewrite Hhash. reflexivity.
Qed.

Lemma computeHashBodies_collision_witness :
  collidingIDs 1 2 = (32768, 16382)
  /\ computeHashBodies 32768 16382 = computeHashBodies 1 2.
Proof.
  split; [reflexivity |].
  apply (computeHashBodies_collision 1 2); lia.
Defined.

(** ** Identifiers of more than 16 bits *)

(** X3.  Only the low 16 bits of [id2] reach the key: adding a multiple of
    [2^16] to [id2] changes neither the key nor the hash. *)
Theorem hashKey_drops_high_bits (id1 id2 k : Z) :
  hashKey id1 (id2 + k * 2 ^ 16) = hashKey id1 id2
  /\ computeHashBodies id1 (id2 + k * 2 ^ 16) = computeHashBodies id1 id2.
Proof.
  assert (Hkey : hashKey id1 (id2 + k * 2 ^ 16) = hashKey id1 id2).
  { unfold hashKey, to_uint, to_unsigned. f_equal.
    rewrite !Z.shiftl_mul_pow2 by lia.
    replace ((id2 + k * 2 ^ 16) * 2 ^ 16) with (id2 * 2 ^ 16 + k * 2 ^ 32) by lia.
    apply Z.mod_add. lia. }
  split; [exact Hkey |]. unfold computeHashBodies. rewrite Hkey. reflexivity.
Qed.

(** X4.  The bits of [id1] from bit 16 on land on the bits of [id2]: an
    [id1] of up to 32 bits with high half [a] and an [id2] below [2^16]
    give the key of the low half of [id1] and [a | id2]. *)
Theorem hashKey_high_half_aliases (lo a id2 : Z) :
  0 <= lo < 2 ^ 16 ->
  0 <= a < 2 ^ 16 ->
  0 <= id2 < 2 ^ 16 ->
  hashKey (lo + a * 2 ^ 16) id2 = hashKey lo (Z.lor a id2)
  /\ computeHashBodies (lo + a * 2 ^ 16) id2 = computeHashBodies lo (Z.lor a id2).
Proof.
  intros Hlo Ha Hid2.
  assert (Hor : 0 <= Z.lor a id2 < 2 ^ 16).
  { split; [apply Z.lor_nonneg; lia |].
    destruct (Z.eq_dec (Z.lor a id2) 0) as [-> | Hnz]; [lia |].
    assert (0 <= Z.lor a id2) by (apply Z.lor_nonneg; lia).
    apply Z.log2_lt_pow2; [lia |]. rewrite Z.log2_lor by lia.
    assert (Hlog : forall x : Z, 0 <= x < 2 ^ 16 -> Z.log2 x < 16).
    { intros x Hx. destruct (Z.eq_dec x 0) as [-> | Hx0]; [reflexivity |].
      apply Z.log2_lt_pow2; lia. }
    pose proof (Hlog a Ha). pose proof (Hlog id2 Hid2). lia. }
  assert (Hkey : hashKey (lo + a * 2 ^ 16) id2 = hashKey lo (Z.lor a id2)).
  { rewrite <- (hashKey_sum lo a) by assumption.
    unfold hashKey, to_uint.
    rewrite !to_unsigned_small by (rewrite Z.shiftl_mul_pow2; lia).
    rewrite <- Z.lor_assoc, <- Z.shiftl_lor. reflexivity. }
  split; [exact Hkey |]. unfold computeHashBodies. rewrite Hkey. reflexivity.
Qed.

Lemma hashKey_high_half_aliases_witness :
  hashKey (5 + 7 * 2 ^ 16) 8 = hashKey 5 15.
Proof. apply (hashKey_high_half_aliases 5 7 8); lia. Defined.

(** ** The bucket and the capacity *)

(** X5.  With a capacity [2^k] and the mask [2^k - 1], as [shrinkMemory]
    sets them, the bucket of two identifiers is their hash modulo the
    capacity. *)
Theorem bucket_is_hash_modulo_capacity (m : PairManager) (k id1 id2 : Z) :
  0 <= k ->
  mNbElementsHashTable m = 2 ^ k ->
  mHashMask m = mNbElementsHashTable m - 1 ->
  bucketOf m id1 id2
  = computeHashBodies (to_uint id1) (to_uint id2) mod mNbElementsHashTable m.
Proof.
  intros Hk Hcap Hmask. unfold bucketOf, bucket. rewrite Hmask, Hcap.
  replace (2 ^ k - 1) with (Z.ones k) by (rewrite Z.ones_equiv; lia).
  apply Z.land_ones. exact Hk.
Qed.

Lemma bucket_is_hash_modulo_capacity_witness :
  bucketOf oneLeftOfFour 5 9 = computeHashBodies (to_uint 5) (to_uint 9) mod 4.
Proof.
  apply (bucket_is_hash_modulo_capacity oneLeftOfFour 2 5 9); [lia | reflexivity | reflexivity].
Defined.

(** ** More on the next power of two *)

Lemma window_start (k : Z) : 0 <= k -> window k 1 (2 ^ k).
Proof.
  intros Hk i Hi. rewrite Z.pow2_bits_eqb by exact Hk.
  destruct (Z.eqb_spec k i), (Z.ltb_spec (k - 1) i), (Z.leb_spec i k);
    cbn; try reflexivity; lia.
Qed.

Lemma window_step (k w x : Z) :
  0 < w -> window k w x -> window k (2 * w) (Z.lor x (Z.shiftr x w)).
Proof.
  intros Hw Hwin i Hi.
  rewrite Z.lor_spec, Z.shiftr_spec by exact Hi.
  rewrite (Hwin i Hi), (Hwin (i + w)) by lia.
  destruct (Z.ltb_spec (k - w) i), (Z.leb_spec i k), (Z.ltb_spec (k - w) (i + w)),
    (Z.leb_spec (i + w) k), (Z.ltb_spec (k - 2 * w) i); cbn; try reflexivity; lia.
Qed.

Lemma window_value (k x : Z) :
  31 <= k -> window k 32 x -> x = 2 ^ (k + 1) - 2 ^ (k - 31).
Proof.
  intros Hk Hwin.
  assert (Hx : x = Z.shiftl (Z.ones 32) (k - 31)).
  { apply Z.bits_inj'. intros i Hi.
    rewrite (Hwin i Hi), Z.shiftl_spec by exact Hi.
    rewrite Z.testbit_ones by lia.
    destruct (Z.ltb_spec (k - 32) i), (Z.leb_spec i k), (Z.leb_spec 0 (i - (k - 31))),
      (Z.ltb_spec (i - (k - 31)) 32); cbn; try reflexivity; lia. }
  rewrite Hx, Z.shiftl_mul_pow2, Z.ones_equiv by lia.
  replace (k + 1) with (32 + (k - 31)) by lia.
  rewrite Z.pow_add_r by lia. lia.
Qed.

Section WidthOfTheSmear.

Context `{IntegerWidths}.

(** Below [2^32] the result is the power of two above the highest set bit,
    reduced to the width of [luint]. *)
Lemma computeNextPowerOfTwo_32_bits (n : Z) :
  0 < n < 2 ^ 32 ->
  computeNextPowerOfTwo n = to_luint (2 ^ (Z.log2 n + 1)).
Proof.
  intros Hn. unfold computeNextPowerOfTwo.
  pose proof (Z.log2_nonneg n) as Hk0.
  assert (Hk : Z.log2 n < 32) by (apply Z.log2_lt_pow2; lia).
  pose proof (filled_start n ltac:(lia)) as F.
  apply (filled_step _ 1) in F; [| lia | lia].
  apply (filled_step _ 2) in F; [| lia | lia].
  apply (filled_step _ 4) in F; [| lia | lia].
  apply (filled_step _ 8) in F; [| lia | lia].
  apply (filled_step _ 16) in F; [| lia | lia].
  apply (filled_ones _ (2 * 16)) in F; [| lia].
  cbv zeta. rewrite F, Z.ones_equiv. f_equal. lia.
Qed.

(** X6.  From [2^31] up to [2^32 - 1] the next power of two is [2^32],
    reduced to the width of [luint]: 0 when [luint] has 32 bits. *)
Theorem computeNextPowerOfTwo_wraps (n : Z) :
  2 ^ 31 <= n < 2 ^ 32 ->
  computeNextPowerOfTwo n = to_luint (2 ^ 32)
  /\ (luint_bits = 32 -> computeNextPowerOfTwo n = 0)
  /\ (32 < luint_bits -> computeNextPowerOfTwo n = 2 ^ 32).
Proof.
  intros Hn.
  assert (Hlog : Z.log2 n = 31) by (apply Z.log2_unique; lia).
  assert (Heq : computeNextPowerOfTwo n = to_luint (2 ^ 32)).
  { rewrite computeNextPowerOfTwo_32_bits by lia. rewrite Hlog. reflexivity. }
  split; [exact Heq |]. rewrite Heq. unfold to_luint, to_unsigned. split.
  - intros ->. reflexivity.
  - intros Hbits. apply Z.mod_small. split; [lia |].
    apply Z.pow_lt_mono_r; lia.
Qed.

(** X7.  The smear covers 32 bits only.  For a power of two [2^k] with
    [32 <= k] that a [luint] can hold, the result is
    [2^(k+1) - 2^(k-31) + 1], which is not a power of two. *)
Theorem computeNextPowerOfTwo_above_32_bits (k : Z) :
  32 <= k < luint_bits ->
  computeNextPowerOfTwo (2 ^ k) = 2 ^ (k + 1) - 2 ^ (k - 31) + 1
  /\ ~ isPowerOfTwo (computeNextPowerOfTwo (2 ^ k)).
Proof.
  intros Hk.
  pose proof (window_start k ltac:(lia)) as W.
  apply (window_step _ 1) in W; [| lia].
  apply (window_step _ 2) in W; [| lia].
  apply (window_step _ 4) in W; [| lia].
  apply (window_step _ 8) in W; [| lia].
  apply (window_step _ 16) in W; [| lia].
  apply window_value in W; [| lia].
  assert (Hlow : 2 <= 2 ^ (k - 31)) by (apply (Z.pow_le_mono_r 2 1); lia).
  assert (Hdouble : 2 ^ (k + 1) = 2 * 2 ^ k)
    by (rewrite Z.pow_add_r by lia; lia).
  assert (Hpart : 2 ^ (k - 31) <= 2 ^ k) by (apply Z.pow_le_mono_r; lia).
  assert (Htop : 2 ^ (k + 1) <= 2 ^ luint_bits) by (apply Z.pow_le_mono_r; lia).
  assert (Heq : computeNextPowerOfTwo (2 ^ k) = 2 ^ (k + 1) - 2 ^ (k - 31) + 1).
  { unfold computeNextPowerOfTwo. cbv zeta. rewrite W.
    apply to_unsigned_small. lia. }
  split; [exact Heq |]. rewrite Heq. intros [j [Hj Hpow]].
  assert (Hjk : k < j) by (apply (Z.pow_lt_mono_r_iff 2); lia).
  assert (Hjk' : j < k + 1) by (apply (Z.pow_lt_mono_r_iff 2); lia).
  lia.
Qed.

(** X8.  Below [2^31] the result is a power of two strictly above the
    argument and at most twice the argument (1 for 0), and it grows with
    the argument. *)
Theorem computeNextPowerOfTwo_bounds (n n' : Z) :
  0 <= n <= n' ->
  n' < 2 ^ 31 ->
  isPowerOfTwo (computeNextPowerOfTwo n)
  /\ n < computeNextPowerOfTwo n <= Z.max 1 (2 * n)
  /\ computeNextPowerOfTwo n <= computeNextPowerOfTwo n'.
Proof.
  intros Hn Hn'. rewrite !computeNextPowerOfTwo_spec by lia.
  pose proof (smallestPowerOfTwoGeq_spec (n + 1)) as (Hpow & Hge & Hmin).
  pose proof (smallestPowerOfTwoGeq_spec (n' + 1)) as (Hpow' & Hge' & _).
  pose proof (smallestPowerOfTwoGeq_succ_bound n ltac:(lia)) as [_ Hup].
  split; [exact Hpow |]. split; [lia |].
  apply Hmin; [exact Hpow' | lia].
Qed.

End WidthOfTheSmear.

Lemma computeNextPowerOfTwo_wraps_witness :
  computeNextPowerOfTwo (H := widths16) 3000000000 = 0.
Proof.
  apply (computeNextPowerOfTwo_wraps (H := widths16) 3000000000); [lia | reflexivity].
Defined.

Lemma computeNextPowerOfTwo_above_32_bits_witness :
  computeNextPowerOfTwo (H := widths64) (2 ^ 40) = 2 ^ 41 - 2 ^ 9 + 1.
Proof.
  apply (computeNextPowerOfTwo_above_32_bits (H := widths64) 40). cbn. lia.
Defined.

Lemma computeNextPowerOfTwo_bounds_witness :
  5 < computeNextPowerOfTwo (H := widths64) 5 <= Z.max 1 (2 * 5).
Proof.
  apply (computeNextPowerOfTwo_bounds (H := widths64) 5 9); lia.
Defined.

(** ** The three orderings agree *)

(** X9.  The bodies as [sortBodiesUsingID] orders them carry the
    identifiers as [sortIDs] orders them, whichever body comes first: the
    record made of the sorted bodies is matched by [isDifferentPair]
    against the sorted identifiers of either argument order, it is matched
    against them swapped only when the two identifiers are equal, and
    [getBodiesIndexPair] gives the same on it as on the unsorted pair. *)
Theorem sorting_functions_agree (a b : CollisionBody) :
  let sorted := sortBodiesUsingID a b in
  let ids := sortIDs (getID b) (getID a) in
  (getID (fst sorted), getID (snd sorted)) = sortIDs (getID a) (getID b)
  /\ getID (fst sorted) <= getID (snd sorted)
  /\ isDifferentPair (mkBodyPair (fst sorted) (snd sorted)) (fst ids) (snd ids) = false
  /\ (isDifferentPair (mkBodyPair (fst sorted) (snd sorted)) (snd ids) (fst ids) = false
      <-> getID a = getID b)
  /\ getBodiesIndexPair (mkBodyPair (fst sorted) (snd sorted))
     = getBodiesIndexPair (mkBodyPair b a).
Proof.
  destruct a as [x], b as [y]. cbv zeta.
  rewrite !isDifferentPair_false.
  unfold sortBodiesUsingID, sortIDs, idsOf, getBodiesIndexPair. cbn [getID].
  destruct (Z.gtb_spec x y) as [Hgt | Hle], (Z.gtb_spec y x) as [Hgt' | Hle'];
    cbn [fst snd body1 body2 getID]; try lia.
  - split; [reflexivity |]. split; [lia |]. split; [reflexivity |].
    split; [| reflexivity]. split; [intros Heq; injection Heq; lia | lia].
  - split; [reflexivity |]. split; [lia |]. split; [reflexivity |].
    split; [split; [intros Heq; injection Heq; lia | lia] |].
    destruct (Z.ltb_spec x y) as [_ | Hxy], (Z.ltb_spec y x) as [Hyx | _];
      try lia; reflexivity.
  - assert (x = y) by lia. subst y.
    split; [reflexivity |]. split; [lia |]. split; [reflexivity |].
    split; [split; reflexivity | reflexivity].
Qed.

(** ** Shrinking twice, and shrinking a store that is too full *)

Section ShrinkingMore.

Context `{IntegerWidths}.

Lemma correct_capacity (n : Z) :
  0 <= n < 2 ^ 31 ->
  2 * n < 2 ^ bodyindex_bits ->
  to_bodyindex (computeNextPowerOfTwo (to_luint n)) = smallestPowerOfTwoGeq (n + 1).
Proof.
  intros Hn Hfit.
  pose proof luint_bits_min as Hl. pose proof bodyindex_bits_min as Hb.
  pose proof (smallestPowerOfTwoGeq_succ_bound n ltac:(lia)) as [Hlow Hup].
  assert (H16 : 2 ^ 16 <= 2 ^ bodyindex_bits) by (apply Z.pow_le_mono_r; lia).
  assert (H32 : 2 ^ 32 <= 2 ^ luint_bits) by (apply Z.pow_le_mono_r; lia).
  unfold to_luint. rewrite to_unsigned_small by lia.
  rewrite computeNextPowerOfTwo_spec by lia.
  apply to_unsigned_small. lia.
Qed.

(** X10.  [shrinkMemory] is idempotent: on a valid dense store of [count]
    records, [count] below [2^31] and [2 * count] within a [bodyindex], it
    returns a manager with the same count on which a second [shrinkMemory]
    changes nothing. *)
Theorem shrinkMemory_idempotent (m : PairManager) :
  denseStoreValid m ->
  mNbOverlappingPairs m < 2 ^ 31 ->
  2 * mNbOverlappingPairs m < 2 ^ bodyindex_bits ->
  exists m' : PairManager,
    shrinkMemory m = Returned m'
    /\ getNbOverlappingPairs m' = getNbOverlappingPairs m
    /\ shrinkMemory m' = Returned m'.
Proof.
  intros Hvalid H31 Hfit. pose proof Hvalid as [Hcount _].
  destruct (shrinkMemory_resizes m Hvalid H31 Hfit) as (m' & Hrun & Hcap & Hn & _).
  exists m'. split; [exact Hrun |]. split; [exact Hn |].
  unfold shrinkMemory. cbv zeta. rewrite Hn.
  rewrite correct_capacity by lia. rewrite Hcap, Z.eqb_refl. reflexivity.
Qed.


End ShrinkingMore.

Lemma shrinkMemory_idempotent_witness :
  exists m' : PairManager,
    shrinkMemory (H := widths64) oneLeftOfFour = Returned m'
    /\ shrinkMemory (H := widths64) m' = Returned m'.
Proof.
  destruct (shrinkMemory_idempotent (H := widths64) oneLeftOfFour)
    as (m' & Hrun & _ & Hagain).
  - exact denseStoreValid_oneLeftOfFour.
  - cbn. lia.
  - cbn. lia.
  - exists m'. split; [exact Hrun | exact Hagain].
Defined.


(** ** The offset of a record *)

Section Offsets.

Context `{IntegerWidths}.

Variables size_t_bits sizeofBodyPair : Z.

(** The difference of the two addresses, in bytes, as a [size_t]. *)
Lemma byte_offset (base i : Z) :
  to_size_t size_t_bits
    (addressValue size_t_bits sizeofBodyPair base (Slot i) - to_size_t size_t_bits base)
  = to_size_t size_t_bits (i * sizeofBodyPair).
Proof.
  unfold addressValue, to_size_t, to_unsigned.
  rewrite <- Zminus_mod. f_equal. lia.
Qed.

(** X12.  [computePairOffset] inverts the address of a record: for a record
    size [sizeofBodyPair] and a cell [i] whose byte offset [i * sizeofBodyPair]
    fits both a [size_t] and a [bodyindex], the offset of the address of
    cell [i] is [i], wherever the array starts.  So on an allocated store
    the offset of the begin pointer is 0 and that of the end pointer is
    [count - 1]. *)
Theorem computePairOffset_round_trip (base i : Z) :
  0 < sizeofBodyPair ->
  0 <= i ->
  i * sizeofBodyPair < 2 ^ size_t_bits ->
  i * sizeofBodyPair < 2 ^ bodyindex_bits ->
  computePairOffset size_t_bits sizeofBodyPair base (Slot i) = i
  /\ forall m : PairManager,
       mOverlappingPairs m <> None ->
       mNbOverlappingPairs m = i + 1 ->
       computePairOffset size_t_bits sizeofBodyPair base (beginOverlappingPairsPointer m) = 0
       /\ computePairOffset size_t_bits sizeofBodyPair base (endOverlappingPairsPointer m) = i.
Proof.
  intros Hsz Hi HS HB.
  assert (Hslot : forall j : Z, 0 <= j <= i ->
            computePairOffset size_t_bits sizeofBodyPair base (Slot j) = j).
  { intros j Hj. unfold computePairOffset. rewrite byte_offset.
    assert (Hjs : 0 <= j * sizeofBodyPair <= i * sizeofBodyPair) by nia.
    unfold to_size_t, to_bodyindex.
    rewrite (to_unsigned_small size_t_bits) by lia.
    rewrite (to_unsigned_small bodyindex_bits (j * sizeofBodyPair)) by lia.
    rewrite Z.div_mul by lia. apply to_unsigned_small. nia. }
  split; [apply Hslot; lia |].
  intros m Halloc Hcount.
  unfold beginOverlappingPairsPointer, endOverlappingPairsPointer.
  destruct (mOverlappingPairs m) as [cells |]; [| congruence]. cbn [addressOf].
  destruct (Z.gtb_spec (mNbOverlappingPairs m) 0) as [_ | Hle]; [| lia].
  split; [apply Hslot; lia |].
  replace (mNbOverlappingPairs m - 1) with i by lia. apply Hslot. lia.
Qed.

(** X13.  The cast to [bodyindex] is applied to the byte offset, before
    the division: when the byte offset of cell [i] fits a [size_t] and not
    a [bodyindex], the result is the byte offset reduced to a [bodyindex]
    and divided by the record size, an offset below [i]. *)
Theorem computePairOffset_truncates (base i : Z) :
  0 < sizeofBodyPair ->
  2 ^ bodyindex_bits <= i * sizeofBodyPair < 2 ^ size_t_bits ->
  computePairOffset size_t_bits sizeofBodyPair base (Slot i)
  = (i * sizeofBodyPair) mod 2 ^ bodyindex_bits / sizeofBodyPair
  /\ computePairOffset size_t_bits sizeofBodyPair base (Slot i) < i.
Proof.
  intros Hsz HS.
  pose proof bodyindex_bits_min as Hb.
  assert (Hpos : 0 < 2 ^ bodyindex_bits) by (apply Z.pow_pos_nonneg; lia).
  assert (Hr : 0 <= (i * sizeofBodyPair) mod 2 ^ bodyindex_bits < 2 ^ bodyindex_bits)
    by (apply Z.mod_pos_bound; exact Hpos).
  set (r := (i * sizeofBodyPair) mod 2 ^ bodyindex_bits) in *.
  assert (Hq0 : 0 <= r / sizeofBodyPair) by (apply Z.div_pos; lia).
  assert (Hq : r / sizeofBodyPair <= r).
  { apply Z.div_le_upper_bound; [lia |]. nia. }
  assert (Hqi : r / sizeofBodyPair < i).
  { apply Z.div_lt_upper_bound; [lia |]. lia. }
  assert (Heq : computePairOffset size_t_bits sizeofBodyPair base (Slot i)
                = r / sizeofBodyPair).
  { unfold computePairOffset. rewrite byte_offset.
    unfold to_size_t, to_bodyindex.
    rewrite (to_unsigned_small size_t_bits) by lia.
    unfold to_unsigned at 2. fold r.
    apply to_unsigned_small. lia. }
  split; [exact Heq | rewrite Heq; exact Hqi].
Qed.

End Offsets.

Lemma computePairOffset_round_trip_witness :
  computePairOffset (H := widths64) 64 16 4096 (Slot 5) = 5.
Proof.
  apply (computePairOffset_round_trip (H := widths64) 64 16 4096 5); cbn; lia.
Defined.

Lemma computePairOffset_truncates_witness :
  computePairOffset (H := widths16) 32 16 4096 (Slot 4096) < 4096.
Proof.
  apply (computePairOffset_truncates (H := widths16) 32 16 4096 4096); cbn; lia.
Defined.

(** ** The lookup with a given hash value *)

Section LookupOfStoredRecords.

Context `{IntegerWidths}.

(** X14.  On a manager that holds the records [ps], [findPairWithHashValue]
    called with the sorted identifiers and their bucket, as [removePair]
    calls it, returns the address of the record with these identifiers,
    where the record is read back, and NULL when no record has them; the
    order of the two identifiers before sorting does not matter. *)
Theorem findPairWithHashValue_finds (m : PairManager) (ps : list BodyPair) (id1 id2 : Z) :
  represents m ps ->
  let ids := sortIDs id1 id2 in
  let found :=
    result (findPairWithHashValue m (fst ids) (snd ids) (bucketOf m (fst ids) (snd ids))) in
  sortIDs id2 id1 = ids
  /\ (forall (j : nat) (p : BodyPair),
        ps !! j = Some p -> idsOf p = ids ->
        found = Returned (Slot (Z.of_nat j))
        /\ deref m (Slot (Z.of_nat j)) = Returned p)
  /\ ((forall p : BodyPair, p ∈ ps -> idsOf p <> ids) -> found = Returned NULL).
Proof.
  intros Hrep. cbv zeta.
  split; [apply sortIDs_comm |].
  rewrite (represents_findPairWithHashValue m ps) by exact Hrep.
  destruct (sortIDs id1 id2) as [x y] eqn:Hids. cbn [fst snd].
  destruct (lookForAPair_spec m ps x y Hrep) as [Hfound Habsent].
  split; [| exact Habsent].
  intros j p Hp Hidp. split; [apply (Hfound j p Hp Hidp) |].
  destruct Hrep as (capacity & table & next & cells & _ & _ & _ & _
                    & Hcells & _ & _ & _ & Hstore & _).
  cbn [deref]. rewrite Hcells. apply readCell_Some, Hstore, Hp.
Qed.

End LookupOfStoredRecords.

Lemma findPairWithHashValue_finds_witness :
  exists (m : PairManager) (p : BodyPairPtr),
    addPair (H := widths64) emptyManager (mkBody 2) (mkBody 1) = Returned (m, p)
    /\ result (findPairWithHashValue (H := widths64) m 1 2 (bucketOf m 1 2))
       = Returned (Slot 0).
Proof.
  destruct (addPair_spec (H := widths64) emptyManager [] (mkBody 2) (mkBody 1))
    as (m & p & Hadd & Hrep).
  - left. split; reflexivity.
  - cbn. lia.
  - intros q Hq. apply elem_of_nil in Hq. contradiction.
  - vm_compute. reflexivity.
  - exists m, p. split; [exact Hadd |].
    pose proof (findPairWithHashValue_finds (H := widths64) m
                  [sortedPair (mkBody 2, mkBody 1)] 2 1 Hrep) as Hf.
    cbv zeta in Hf. destruct Hf as (_ & Hfound & _).
    destruct (Hfound 0%nat (sortedPair (mkBody 2, mkBody 1)) eq_refl eq_refl)
      as [Hres _].
    exact Hres.
Defined.
